(** * TgSteamKeyActivator: channel filters, key extraction and key activation

    A shallow embedding of the authored JavaScript of the bot:
    - [KeyActivator]  : steam/key_activator.js ([activate], the error codes);
    - [SteamLegacy]   : steam/steam.js (the older [activate]);
    - [G2Keys]        : the handler of chat g2keys (text filter,
                        [parseCdKey]);
    - [FreebieSteam]  : handler/freebie_steam-handler.js (image filter,
                        [filterCdKeyText], the promise chain);
    - [EventHandler]  : telegram/event-handler.js ([loadHandlers]);
    - [Index]         : index.js (the start-up promise chain).

    JavaScript strings are sequences of UTF-16 code units, numbers that the
    code only compares are integers, promises are values that are resolved,
    rejected or still pending, and every observable action (a log line, a
    redemption request, a module load, [process.exit]) is an entry of an
    effect trace. *)

From Stdlib Require Import ZArith NArith Lia.
From stdpp Require Import base list strings.
From Equations Require Import Equations.

Open Scope Z_scope.

(** ** JavaScript strings and the built-ins the code calls *)

Module JS.

(** A string is the list of its UTF-16 code units. *)
Definition jsstring := list N.

(** An ASCII literal of the source as a [jsstring]. *)
Fixpoint lit (s : string) : jsstring :=
  match s with
  | EmptyString => []
  | String a s' => Ascii.N_of_ascii a :: lit s'
  end.

Definition SPACE : N := 32.
Definition DASH : N := 45.       (* U+002D, the hyphen-minus *)
Definition EM_DASH : N := 8212.  (* U+2014, the dash the regexps spell out *)
Definition UNDERSCORE : N := 95.

Definition in_range (lo hi c : N) : bool := ((lo <=? c) && (c <=? hi))%N.
Definition isUpper (c : N) : bool := in_range 65 90 c.
Definition isLower (c : N) : bool := in_range 97 122 c.
Definition isDigit (c : N) : bool := in_range 48 57 c.

(** [\w] of a regexp without the [i] and [u] flags: [A-Za-z0-9_]. *)
Definition isWord (c : N) : bool :=
  isUpper c || isLower c || isDigit c || (c =? UNDERSCORE)%N.

(** WhiteSpace and LineTerminator of ECMAScript, which [trim] strips. *)
Definition isWhiteSpace (c : N) : bool :=
  (in_range 9 13 c || (c =? 32) || (c =? 160) || (c =? 5760)
   || in_range 8192 8202 c || (c =? 8232) || (c =? 8233) || (c =? 8239)
   || (c =? 8287) || (c =? 12288) || (c =? 65279))%N.

Fixpoint trimStart (s : jsstring) : jsstring :=
  match s with
  | c :: s' => if isWhiteSpace c then trimStart s' else s
  | [] => []
  end.

Definition trimEnd (s : jsstring) : jsstring := rev (trimStart (rev s)).

(** [String.prototype.trim]. *)
Definition trim (s : jsstring) : jsstring := trimEnd (trimStart s).

(** The longest prefix of [s] whose code units are all in [cls], and the
    rest: what a greedy quantifier over a character class consumes. *)
Fixpoint span (cls : N -> bool) (s : jsstring) : jsstring * jsstring :=
  match s with
  | c :: s' =>
      if cls c then let '(m, r) := span cls s' in (c :: m, r) else ([], s)
  | [] => ([], [])
  end.

Lemma span_length cls s : (length (span cls s).2 <= length s)%nat.
Proof.
  induction s as [|c s IH]; simpl; [lia|].
  destruct (cls c); [|simpl; lia].
  destruct (span cls s) as [m r]; simpl in *; lia.
Qed.

(** Every match of the global regexp [/[cls]{n,}/g] (with [n] at least 1)
    in [s], left to right. At each start position the engine consumes the
    longest run of class characters; a run of at least [n] is a match and
    the search resumes behind it, a shorter one fails and the search
    resumes one code unit further. *)
Equations? matchAll (cls : N -> bool) (n : nat) (s : jsstring)
  : list jsstring by wf (length s) lt :=
  matchAll cls n [] := [];
  matchAll cls n (c :: s') :=
    if cls c then
      if bool_decide (n ≤ S (length (span cls s').1))%nat
      then (c :: (span cls s').1) :: matchAll cls n (span cls s').2
      else matchAll cls n s'
    else matchAll cls n s'.
Proof.
  all: try lia.
  pose proof (span_length cls s'). lia.
Qed.

(** The value of [str.match(re)] for a global regexp: [null] when nothing
    matches, otherwise the array of the matches. It is never [undefined]. *)
Inductive matchResult :=
| JSnull
| JSarray (items : list jsstring).

Definition String_match (cls : N -> bool) (n : nat) (s : jsstring)
  : matchResult :=
  match matchAll cls n s with
  | [] => JSnull
  | ms => JSarray ms
  end.

(** [str.replace(/[cls]/g, by)]: every code unit of the class is replaced. *)
Fixpoint String_replace (cls : N -> bool) (by_ : jsstring) (s : jsstring)
  : jsstring :=
  match s with
  | c :: s' =>
      (if cls c then by_ else [c]) ++ String_replace cls by_ s'
  | [] => []
  end.

(** What the code throws or rejects with: a bare number (the error codes
    of the key activator), an [Error] object with its message, or the
    [TypeError] of the runtime. *)
Inductive reason :=
| Number (n : Z)
| Error (message : jsstring)
| TypeError (message : jsstring).

(** How a synchronous call ends. *)
Inductive completion (A : Type) :=
| Return (a : A)
| Throw (e : reason).
Arguments Return {A} a.
Arguments Throw {A} e.

(** The state of a promise once the run is over. *)
Inductive settled (A E : Type) :=
| Resolved (a : A)
| Rejected (e : E)
| Pending.
Arguments Resolved {A E} a.
Arguments Rejected {A E} e.
Arguments Pending {A E}.

End JS.
Export JS.

(** ** Observable actions *)

(** One constructor per [utils.log] call of the source, carrying the values
    the line interpolates (colours are display only). *)
Inductive logline :=
| LogNotInitialised
| LogAttempt (cdKey : jsstring)
| LogActivated (cdKey gameName : jsstring)
| LogAlreadyOwn (cdKey gameName : jsstring) (details : Z)
| LogInvalid (cdKey : jsstring) (details : Z)
| LogAlreadyActivated (cdKey gameName : jsstring) (details : Z)
| LogActivationFailed (cdKey : jsstring) (details : Z)
| LogProbablyKeys (probalyKeys : matchResult)
| LogFoundKey (cdKey : jsstring)
| LogLoadingImage (id : string)
| LogSavingImage (id : string)
| LogImageSaved (id imagePath : string)
| LogScanned (text : jsstring)
| LogFiltered (cdKey : jsstring)
| LogHandlerError (ex : reason)
| LogConnectingHandlers
| LogNoHandlers
| LogFoundHandlers (handlersCount : nat) (files : list string)
| LogEventsHandlerReady
| LogSteamReady
| LogTelegramReady
| LogHandlersReady
| LogLaunchComplete
| LogRuntimeError (err : reason).

Inductive effect :=
| Log (line : logline)
| Redeem (cdKey : jsstring)          (* SteamRegistrar.activateKey *)
| LoadImage (dc_id local_id : Z) (volume_id secret : string)
| WriteFile (path : string)
| Tesseract (path : string)
| RequireModule (path : string)      (* require(path)(eventEmitter) *)
| Observe                            (* bus.untypedMessage.observe *)
| SetInterval (ms : Z)
| Uncaught (e : reason)              (* thrown out of an asynchronous callback *)
| ProcessExit.

Definition trace := list effect.

(** ** steam/key_activator.js *)

Module KeyActivator.

Definition EC_ACTIVATION_FAILED : Z := 1.
Definition EC_ACTIVATION_FAILED_ALREADY_ACTIVATED : Z := 2.
Definition EC_NOT_INITED : Z := 3.
Definition EC_AUTH_FAILED : Z := 4.
Definition EC_AUTH_CODE_REQUIRED : Z := 5.

(** The module's mutable state: [let _ready = false]. *)
Record state := { _ready : bool }.
Definition initial : state := {| _ready := false |}.

Definition isReady (st : state) : bool := _ready st.

(** What the code reads of a purchase response; [lineitems] holds the
    [ItemDescription] of each line item of the receipt. *)
Record PurchaseResponse := {
  eresult : Z;
  purchase_result_details : Z;
  lineitems : list jsstring
}.

Definition getGameName (purchaseResponse : PurchaseResponse) : jsstring :=
  match lineitems purchaseResponse with
  | item :: _ => item
  | [] => lit "unknown"
  end.

Section Activate.
(** [Steam.EResult.OK] of the steam library. *)
Variable EResult_OK : Z.
(** The platform session: the response [activateKey] hands to its
    callback for a key, or [None] when the callback is never called. *)
Variable activateKey : jsstring -> option PurchaseResponse.

(** The [else] branch of the callback: the error code and the log line
    chosen by the [switch] on the detail code. *)
Definition failure (cdKey : jsstring) (purchaseResponse : PurchaseResponse)
  : Z * logline :=
  let errorCode := EC_ACTIVATION_FAILED in
  let details := purchase_result_details purchaseResponse in
  if details =? 9 then
    (errorCode, LogAlreadyOwn cdKey (getGameName purchaseResponse) details)
  else if details =? 14 then
    (errorCode, LogInvalid cdKey details)
  else if details =? 15 then
    (EC_ACTIVATION_FAILED_ALREADY_ACTIVATED,
     LogAlreadyActivated cdKey (getGameName purchaseResponse) details)
  else (* case 53: default: *)
    (errorCode, LogActivationFailed cdKey details).

Definition activate (st : state) (cdKey : jsstring)
  : trace * settled jsstring Z :=
  if negb (_ready st) then
    ([Log LogNotInitialised], Rejected EC_NOT_INITED)
  else
    let cdKey := trim cdKey in
    let sent := [Log (LogAttempt cdKey); Redeem cdKey] in
    match activateKey cdKey with
    | None => (sent, Pending)
    | Some purchaseResponse =>
        let code := eresult purchaseResponse in
        if code =? EResult_OK then
          (sent ++ [Log (LogActivated cdKey (getGameName purchaseResponse))],
           Resolved cdKey)
        else
          let '(errorCode, line) := failure cdKey purchaseResponse in
          (sent ++ [Log line], Rejected errorCode)
    end.
End Activate.

End KeyActivator.

(** ** steam/steam.js, the older activator *)

Module SteamLegacy.
Import KeyActivator.

Inductive legacyLog :=
| LegacyNotInitialised
| LegacySuccess (keyCd : jsstring)
| LegacyFailed (keyCd : jsstring) (code : Z) (detailsMsg : Z + jsstring).

Inductive legacyEffect :=
| ConsoleLog (line : legacyLog)
| LegacyRedeem (keyCd : jsstring).

Section Activate.
Variable EResult_OK : Z.
Variable activateKey : jsstring -> option PurchaseResponse.

Definition activate (inted : bool) (keyCd : jsstring)
  : list legacyEffect * settled jsstring Z :=
  if negb inted then
    ([ConsoleLog LegacyNotInitialised], Rejected EC_NOT_INITED)
  else
    match activateKey keyCd with
    | None => ([LegacyRedeem keyCd], Pending)
    | Some purchaseResponse =>
        let code := eresult purchaseResponse in
        if code =? EResult_OK then
          ([LegacyRedeem keyCd; ConsoleLog (LegacySuccess keyCd)],
           Resolved keyCd)
        else
          let details := purchase_result_details purchaseResponse in
          let '(detailsMsg, errorCode) :=
            if details =? 53 then
              (inr (lit "already activated"),
               EC_ACTIVATION_FAILED_ALREADY_ACTIVATED)
            else (inl details, EC_ACTIVATION_FAILED) in
          ([LegacyRedeem keyCd;
            ConsoleLog (LegacyFailed keyCd code detailsMsg)],
           Rejected errorCode)
    end.
End Activate.
End SteamLegacy.

(** ** The inbound events the handlers inspect *)

Module TL.

Inductive Peer :=
| peerUser (user_id : Z)
| peerChat (chat_id : Z)
| peerChannel (channel_id : Z).

(** [to_id.channel_id]: [undefined] on a peer that is not a channel. *)
Definition channel_id_of (p : Peer) : option Z :=
  match p with
  | peerChannel channel_id => Some channel_id
  | _ => None
  end.

Record FileLocation := {
  dc_id : Z;
  volume_id : string;
  local_id : Z;
  secret : string
}.

Record PhotoSize := { location : FileLocation; size : Z }.

Record Photo := { photo_id : string; sizes : list PhotoSize }.

Inductive MessageMedia :=
| messageMediaPhoto (photo : Photo)
| messageMediaOther (tag : string).

Record Message := {
  to_id : Peer;
  message : jsstring;
  media : option MessageMedia
}.

Inductive Update :=
| updateNewChannelMessage (m : Message)
| updateOther (tag : string).

(** The [data.message] the dispatcher emits; its [_] is ['updates'] or
    something else. *)
Inductive Updates :=
| updates (updateArray : list Update)
| updatesOther (tag : string).

End TL.
Export TL.

(** ** The text handler (chat g2keys) *)

Module G2Keys.

Definition chatId : Z := 1298051109.

(** The class of [/[ A-Z0-9—-]{5,}/g]. *)
Definition keyChar (c : N) : bool :=
  (c =? SPACE)%N || isUpper c || isDigit c
  || (c =? EM_DASH)%N || (c =? DASH)%N.

(** [let lastMsg = ""]. *)
Record state := { lastMsg : jsstring }.
Definition initial : state := {| lastMsg := [] |}.

(** The [for] loop of [eventsFilter] over the rest of [updateArray]. *)
Fixpoint scan (st : state) (updateArray : list Update)
  : state * option jsstring :=
  match updateArray with
  | [] => (st, None)
  | current :: rest =>
      match current with
      | updateNewChannelMessage m =>
          if bool_decide (channel_id_of (to_id m) ≠ Some chatId)
          then scan st rest
          else
            let msg := message m in
            if bool_decide (lastMsg st ≠ msg)
            then ({| lastMsg := msg |}, Some msg)
            else scan st rest
      | updateOther _ => scan st rest
      end
  end.

Definition eventsFilter (st : state) (eventData : Updates)
  : state * option jsstring :=
  match eventData with
  | updates updateArray => scan st updateArray
  | updatesOther _ => (st, None)
  end.

(** Reading [length] of [null]. *)
Definition nullLength : reason :=
  TypeError (lit "Cannot read property 'length' of null").

(** [probalyKeys !== undefined] holds of [null] as of an array, so on
    [null] the code goes on to read [null.length]. *)
Definition parseCdKey (chatMessage : jsstring)
  : trace * completion (option jsstring) :=
  let probalyKeys := String_match keyChar 5 chatMessage in
  let logged := [Log (LogProbablyKeys probalyKeys)] in
  match probalyKeys with
  | JSnull => (logged, Throw nullLength)
  | JSarray [] => (logged, Return None)
  | JSarray (first :: _) =>
      let cdKey := trim first in
      (logged ++ [Log (LogFoundKey cdKey)], Return (Some cdKey))
  end.

Section Handler.
Variable EResult_OK : Z.
Variable activateKey : jsstring -> option KeyActivator.PurchaseResponse.

(** The listener [module.exports] registers for ['event']. The promise
    of [activate] carries [.catch((e) => {})]. *)
Definition onEvent (ka : KeyActivator.state) (st : state)
  (eventData : Updates) : state * trace * completion () :=
  let '(st', chatMessage) := eventsFilter st eventData in
  match chatMessage with
  | None => (st', [], Return ())
  | Some chatMessage =>
      match parseCdKey chatMessage with
      | (tr, Throw e) => (st', tr, Throw e)
      | (tr, Return None) => (st', tr, Return ())
      | (tr, Return (Some cdKey)) =>
          (st',
           tr ++ (KeyActivator.activate EResult_OK activateKey ka cdKey).1,
           Return ())
      end
  end.
End Handler.

End G2Keys.

(** ** The image handler (chat freebie_steam) *)

Module FreebieSteam.

Definition chatId : Z := 1195028505.
Definition imgDirPath : string := "./res/".

(** The object [eventsFilter] returns. *)
Record fileInfo := {
  fi_location : FileLocation;
  fi_size : Z;
  fi_id : string
}.

(** Reading [location] of [undefined]. *)
Definition undefinedLocation : reason :=
  TypeError (lit "Cannot read property 'location' of undefined").

(** Calling [utils.error], which [utils] does not export. *)
Definition utilsErrorMissing : reason :=
  TypeError (lit "utils.error is not a function").

(** The [for] loop of [eventsFilter]. [sizes[sizes.length - 1]] of an empty
    list is [undefined], and reading [last.location] then throws. *)
Fixpoint scan (updateArray : list Update) : completion (option fileInfo) :=
  match updateArray with
  | [] => Return None
  | current :: rest =>
      match current with
      | updateNewChannelMessage m =>
          if bool_decide (channel_id_of (to_id m) ≠ Some chatId)
          then scan rest
          else
            match media m with
            | Some (messageMediaPhoto photo) =>
                if bool_decide (message m ≠ []) then scan rest
                else
                  match last (sizes photo) with
                  | None => Throw undefinedLocation
                  | Some last =>
                      Return (Some {| fi_location := location last;
                                      fi_size := size last;
                                      fi_id := photo_id photo |})
                  end
            | _ => scan rest
            end
      | updateOther _ => scan rest
      end
  end.

Definition eventsFilter (eventData : Updates)
  : completion (option fileInfo) :=
  match eventData with
  | updates updateArray => scan updateArray
  | updatesOther _ => Return None
  end.

(** The class of [/[^\w—-]/g]. *)
Definition notKeyText (c : N) : bool :=
  negb (isWord c || (c =? EM_DASH)%N || (c =? DASH)%N).

(** The class of [/[—-]/g]. *)
Definition anyDash (c : N) : bool := (c =? EM_DASH)%N || (c =? DASH)%N.

(** The two [replace] calls of [filterCdKeyText]. *)
Definition normalize (cdKey : jsstring) : jsstring :=
  let cdKey := String_replace notKeyText [] cdKey in
  String_replace anyDash [DASH] cdKey.

Definition filterCdKeyText (cdKey : jsstring) : trace * jsstring :=
  let scanned := String_replace (fun c => (c =? 10)%N) [] cdKey in
  let cdKey := normalize cdKey in
  ([Log (LogScanned scanned); Log (LogFiltered cdKey)], cdKey).

(** [path_module.join(imgDirPath, imgName + ".jpg")]. *)
Definition imagePathOf (imgName : string) : string :=
  ("res/" +:+ imgName +:+ ".jpg")%string.

Section Handler.
Variable EResult_OK : Z.
Variable activateKey : jsstring -> option KeyActivator.PurchaseResponse.
(** [Telegram.loadImage]: the promise of the image buffer. *)
Variable loadImage : FileLocation -> settled jsstring reason.
(** [fs.writeFileSync]: what it throws, if anything. *)
Variable writeFileSync : string -> jsstring -> option reason.
(** [tesseract.process]: the [err] or the [text] given to the callback. *)
Variable tesseract : string -> reason + jsstring.

(** The final [.catch] of the chain. *)
Definition onRejected (ex : reason) : trace := [Log (LogHandlerError ex)].

(** The promise chain started for a matched event. [utils] has no
    [error] function, so the [err] branch of the OCR callback throws out
    of the callback instead of rejecting. *)
Definition pipeline (ka : KeyActivator.state) (fi : fileInfo) : trace :=
  let id := fi_id fi in
  let loc := fi_location fi in
  [Log (LogLoadingImage id);
   LoadImage (dc_id loc) (local_id loc) (volume_id loc) (secret loc)] ++
  match loadImage loc with
  | Pending => []
  | Rejected ex => onRejected ex
  | Resolved imageBuffer =>
      let imgPath := imagePathOf id in
      [Log (LogSavingImage id); WriteFile imgPath] ++
      match writeFileSync imgPath imageBuffer with
      | Some ex => onRejected ex
      | None =>
          [Log (LogImageSaved id imgPath); Tesseract imgPath] ++
          match tesseract imgPath with
          | inl err => [Uncaught utilsErrorMissing]
          | inr text =>
              let '(tr, cdKey) := filterCdKeyText text in
              let '(tr', r) :=
                KeyActivator.activate EResult_OK activateKey ka cdKey in
              tr ++ tr' ++
              match r with
              | Rejected e => onRejected (Number e)
              | _ => []
              end
          end
      end
  end.

(** The listener [module.exports] registers for ['event']. *)
Definition onEvent (ka : KeyActivator.state) (eventData : Updates)
  : trace * completion () :=
  match eventsFilter eventData with
  | Throw e => ([], Throw e)
  | Return None => ([], Return ())
  | Return (Some fi) => (pipeline ka fi, Return ())
  end.
End Handler.

End FreebieSteam.

(** ** telegram/event-handler.js *)

Module EventHandler.

Definition handlersFolder : string := "./handler/".

(** [path_module.join(handlersFolder, file)] for a directory entry. *)
Definition join_handlersFolder (file : string) : string :=
  ("handler/" +:+ file)%string.

Definition loadModule (path : string) : effect :=
  RequireModule ("../" +:+ path)%string.

Definition NoHandlers : reason := Error (lit "No event handlers found").

(** The callback of [fs.readdir], given the [files] it receives. *)
Definition loadHandlers (files : list string) : trace * settled nat reason :=
  let handlersCount := length files in
  if bool_decide (handlersCount = 0%nat) then
    ([Log LogConnectingHandlers; Log LogNoHandlers], Rejected NoHandlers)
  else
    ([Log LogConnectingHandlers; Log (LogFoundHandlers handlersCount files)]
     ++ map (fun file => loadModule (join_handlersFolder file)) files,
     Resolved handlersCount).

Definition startEventHandler : trace * settled () reason :=
  ([Observe; SetInterval 1000; Log LogEventsHandlerReady], Resolved ()).

(** A listener over the state [S] of the loaded handlers. *)
Definition listener (S : Type) : Type :=
  S -> Updates -> S * trace * completion ().

(** [eventEmitter.emit("event", data.message)]: the listeners run in the
    order they were registered, and what one throws leaves [emit]. *)
Fixpoint emit {S : Type} (listeners : list (listener S)) (s : S)
  (eventData : Updates) : S * trace * completion () :=
  match listeners with
  | [] => (s, [], Return ())
  | l :: ls =>
      match l s eventData with
      | (s1, t1, Throw e) => (s1, t1, Throw e)
      | (s1, t1, Return _) =>
          let '(s2, t2, r) := emit ls s1 eventData in (s2, t1 ++ t2, r)
      end
  end.

End EventHandler.

(** ** index.js *)

Module Index.

(** A promise with the effects of running it. *)
Definition promise (A : Type) : Type := trace * settled A reason.

Definition then_ {A B : Type} (p : promise A) (f : A -> promise B)
  : promise B :=
  match p with
  | (t, Resolved a) => let '(t', r) := f a in (t ++ t', r)
  | (t, Rejected e) => (t, Rejected e)
  | (t, Pending) => (t, Pending)
  end.

Definition catch_ {A : Type} (p : promise A) (h : reason -> promise A)
  : promise A :=
  match p with
  | (t, Rejected e) => let '(t', r) := h e in (t ++ t', r)
  | _ => p
  end.

Definition log (line : logline) : promise () := ([Log line], Resolved ()).

Notation "p >>= f" := (then_ p f) (at level 50, left associativity).

Section Main.
(** [KeyActivator.init] and [Telegram.init], and the directory listing
    [fs.readdir] hands to [loadHandlers]. *)
Variable KeyActivator_init : promise ().
Variable Telegram_init : promise ().
Variable files : list string.

Definition main : promise () :=
  catch_
    (KeyActivator_init
       >>= (fun _ => log LogSteamReady)
       >>= (fun _ => Telegram_init)
       >>= (fun _ => log LogTelegramReady)
       >>= (fun _ => EventHandler.loadHandlers files)
       >>= (fun _ => EventHandler.startEventHandler)
       >>= (fun _ => log LogHandlersReady)
       >>= (fun _ => log LogLaunchComplete))
    (fun err => ([Log (LogRuntimeError err); ProcessExit], Resolved ())).
End Main.

End Index.

(** ** The two handlers behind the dispatcher *)

Module Bot.

(** The module states the listeners share. *)
Record world := {
  activator : KeyActivator.state;
  g2keys : G2Keys.state
}.

Section Listeners.
Variable EResult_OK : Z.
Variable activateKey : jsstring -> option KeyActivator.PurchaseResponse.
Variable loadImage : FileLocation -> settled jsstring reason.
Variable writeFileSync : string -> jsstring -> option reason.
Variable tesseract : string -> reason + jsstring.

Definition textListener : EventHandler.listener world :=
  fun w eventData =>
    let '(st, tr, r) :=
      G2Keys.onEvent EResult_OK activateKey (activator w) (g2keys w)
        eventData in
    ({| activator := activator w; g2keys := st |}, tr, r).

Definition imageListener : EventHandler.listener world :=
  fun w eventData =>
    let '(tr, r) :=
      FreebieSteam.onEvent EResult_OK activateKey loadImage writeFileSync
        tesseract (activator w) eventData in
    (w, tr, r).

(** The two listeners, in one of the two orders [loadHandlers] can
    register them in. *)
Definition listeners : list (EventHandler.listener world) :=
  [imageListener; textListener].
End Listeners.

End Bot.

(** ** The vocabulary of the specification *)

Module Spec.

(** The error kinds of the key activator as the specification names them. *)
Inductive errorKind :=
| ALREADY_OWNED
| INVALID
| ALREADY_ACTIVATED
| ACTIVATION_FAILED.

(** The kind the specification assigns to a detail code. *)
Definition kindOfDetail (details : Z) : errorKind :=
  if details =? 9 then ALREADY_OWNED
  else if details =? 14 then INVALID
  else if details =? 15 then ALREADY_ACTIVATED
  else ACTIVATION_FAILED.

(** [s] contains a run of at least [n] characters of the class. *)
Definition hasRun (cls : N -> bool) (n : nat) (s : jsstring) : Prop :=
  ∃ a b c, s = a ++ b ++ c ∧ Forall (λ x, cls x = true) b
           ∧ (n ≤ length b)%nat.

(** [s] is [pre ++ run ++ post] where [run] is the leftmost maximal run of
    at least [n] characters of the class. *)
Definition firstMaximalRun (cls : N -> bool) (n : nat)
  (pre run post : jsstring) : Prop :=
  Forall (λ x, cls x = true) run
  ∧ (n ≤ length run)%nat
  ∧ (∀ c, last pre = Some c → cls c = false)
  ∧ (∀ c, head post = Some c → cls c = false)
  ∧ ¬ hasRun cls n pre.

(** The characters of [[A-Za-z0-9-]]. *)
Definition keyTextChar (c : N) : bool :=
  isUpper c || isLower c || isDigit c || (c =? DASH)%N.

(** An em-dash read as an ordinary dash. *)
Definition dashOf (c : N) : N := if (c =? EM_DASH)%N then DASH else c.

End Spec.

(** A new-channel-message event on channel [chat] with the given body. *)
Definition channelMessage (chat : Z) (body : jsstring)
  (attachment : option MessageMedia) : Updates :=
  updates [updateNewChannelMessage
             {| to_id := peerChannel chat; message := body;
                media := attachment |}].

(** C1 as the specification states it: reading the rejected values as
    error kinds through some [kind], every response that is not OK is
    rejected with the kind of its detail code. *)
Definition rejectsWithKindOfDetail (kind : Z → Spec.errorKind) : Prop :=
  ∀ OK activateKey st cdKey r,
    KeyActivator._ready st = true →
    activateKey (trim cdKey) = Some r →
    KeyActivator.eresult r ≠ OK →
    ∃ e, (KeyActivator.activate OK activateKey st cdKey).2 = Rejected e
         ∧ kind e
           = Spec.kindOfDetail (KeyActivator.purchase_result_details r).

(** A character that both [replace] calls of [normalize] leave alone. *)
Definition settledChar (c : N) : Prop :=
  negb (FreebieSteam.notKeyText c) = true ∧ Spec.dashOf c = c.

(** The photo of an update that is a new channel message on the channel of
    the image handler with an empty text and a photo attached. *)
Definition photoMessage (u : Update) : option Photo :=
  match u with
  | updateNewChannelMessage m =>
      match media m with
      | Some (messageMediaPhoto photo) =>
          if bool_decide (channel_id_of (to_id m) = Some FreebieSteam.chatId
                          ∧ message m = [])
          then Some photo else None
      | _ => None
      end
  | updateOther _ => None
  end.

Definition fileInfoOf (photo : Photo) (last : PhotoSize)
  : FreebieSteam.fileInfo :=
  {| FreebieSteam.fi_location := location last;
     FreebieSteam.fi_size := size last;
     FreebieSteam.fi_id := photo_id photo |}.

(** ** Sample inputs *)

(** Two responses of the platform that are not OK, for a session whose
    OK code is 1: the account owns the title (9), and detail code 53. *)
Definition owned : KeyActivator.PurchaseResponse :=
  {| KeyActivator.eresult := 2; KeyActivator.purchase_result_details := 9;
     KeyActivator.lineitems := [lit "Some Game"] |}.
Definition throttled : KeyActivator.PurchaseResponse :=
  {| KeyActivator.eresult := 2; KeyActivator.purchase_result_details := 53;
     KeyActivator.lineitems := [] |}.

Definition readySession : KeyActivator.state :=
  {| KeyActivator._ready := true |}.

(** The message of the specification's example, cut at its first run. *)
Definition examplePre : jsstring := lit "Get your key:".
Definition exampleRun : jsstring := lit " AB12C-DE34F-GH56I ".
Definition examplePost : jsstring := lit "now!".

(** The photo of the specification's example: three sizes, ascending. *)
Definition somewhere (n : Z) : FileLocation :=
  {| dc_id := 2; volume_id := "230815"; local_id := n; secret := "7" |}.
Definition examplePhoto : Photo :=
  {| photo_id := "5321";
     sizes := [ {| location := somewhere 1; size := 10 |};
                {| location := somewhere 2; size := 50 |};
                {| location := somewhere 3; size := 200 |} ] |}.

(** ** Reading traces and feeding events *)

(** The keys of the redemption requests of a trace, in order. *)
Definition redeems (t : trace) : list jsstring :=
  omap (λ e, match e with Redeem cdKey => Some cdKey | _ => None end) t.



(** ** telegram/init.js and telegram/telegram-client.js *)

Module TelegramClient.

(** What the code reads of an error of the messaging library: the three
    fields [errorType] looks at, each absent or a string. *)
Record TgError := {
  message : option jsstring;
  error_message : option jsstring;
  type : option jsstring
}.

(** The truth value of a field in an [if]: [undefined] and the empty
    string are false. *)
Definition truthy (v : option jsstring) : bool :=
  match v with
  | Some (_ :: _) => true
  | _ => false
  end.

(** [exports.errorType] of init.js; [None] is the [undefined] of falling
    off the end. *)
Definition errorType (error : TgError) : option jsstring :=
  if truthy (message error) then message error
  else if truthy (error_message error) then error_message error
  else if truthy (type error) then type error
  else None.

Definition AUTH_KEY_UNREGISTERED : jsstring := lit "AUTH_KEY_UNREGISTERED".
Definition SESSION_PASSWORD_NEEDED : jsstring := lit "SESSION_PASSWORD_NEEDED".
Definition PHONE_CODE_INVALID : jsstring := lit "PHONE_CODE_INVALID".

(** The error of a session that is not logged in, as [isUserAuthorized]
    tells it. *)
Definition unauthorized (ex : TgError) : Prop :=
  errorType ex = Some AUTH_KEY_UNREGISTERED
  ∨ errorType ex = Some SESSION_PASSWORD_NEEDED.

(** What the code reads of the answer to [users.getFullUser] and of the
    user [login] resolves with. *)
Record User := { first_name : jsstring }.

Inductive tgLog :=
| LogDebugServer
| LogConnecting (phone : jsstring)
| LogLoginSuccess (first_name phone : jsstring)
| LogAuthRequired
| LogLoginFailedCodeInvalid
| LogLoginFailed (loginEx : TgError)
| LogCheckUnregistered
| LogCheckError (authCheckEx : TgError).

Inductive tgEffect :=
| TgLog (line : tgLog)
| GetFullUser                      (* telegram.app('users.getFullUser') *)
| Login (phone : jsstring).        (* login(phone) of login-2fa.js *)

(** [isUserAuthorized], given how the [users.getFullUser] call settles. *)
Definition isUserAuthorized (phone : jsstring)
  (getFullUser : settled User TgError)
  : list tgEffect * settled bool TgError :=
  match getFullUser with
  | Resolved fullUser =>
      ([GetFullUser; TgLog (LogLoginSuccess (first_name fullUser) phone)],
       Resolved true)
  | Rejected authCheckEx =>
      if bool_decide (errorType authCheckEx = Some AUTH_KEY_UNREGISTERED)
         || bool_decide (errorType authCheckEx = Some SESSION_PASSWORD_NEEDED)
      then ([GetFullUser], Resolved false)
      else ([GetFullUser], Rejected authCheckEx)
  | Pending => ([GetFullUser], Pending)
  end.

(** The [.catch] of [_login]. *)
Definition loginFailed (loginEx : TgError) : tgLog :=
  if bool_decide (errorType loginEx = Some PHONE_CODE_INVALID)
  then LogLoginFailedCodeInvalid
  else LogLoginFailed loginEx.

(** The [.catch] of [connect]. *)
Definition checkFailed (authCheckEx : TgError) : tgLog :=
  if bool_decide (errorType authCheckEx = Some AUTH_KEY_UNREGISTERED)
  then LogCheckUnregistered
  else LogCheckError authCheckEx.

(** [connect] and [_login] of [init], which call each other: [checks] are
    the ways the successive [users.getFullUser] calls settle and [logins]
    the ways the successive [login] calls settle; a call beyond the end of
    its list never settles. *)
Fixpoint connect (phone : jsstring) (checks : list (settled User TgError))
  (logins : list (settled User TgError))
  : list tgEffect * settled () TgError :=
  match checks with
  | [] => ([GetFullUser], Pending)
  | check :: checks' =>
      let '(t, authed) := isUserAuthorized phone check in
      match authed with
      | Resolved true => (t, Resolved ())
      | Resolved false =>
          let t := t ++ [TgLog LogAuthRequired; Login phone] in
          match logins with
          | Resolved logResult :: logins' =>
              let '(t', r) := connect phone checks' logins' in (t ++ t', r)
          | Rejected loginEx :: _ =>
              (t ++ [TgLog (loginFailed loginEx)], Rejected loginEx)
          | Pending :: _ | [] => (t, Pending)
          end
      | Rejected authCheckEx =>
          (t ++ [TgLog (checkFailed authCheckEx)], Rejected authCheckEx)
      | Pending => (t, Pending)
      end
  end.

(** [exports.init], with [config.tg_debug_server] and
    [config.tg_user_phone]. *)
Definition init (tg_debug_server : bool) (tg_user_phone : jsstring)
  (checks logins : list (settled User TgError))
  : list tgEffect * settled () TgError :=
  let phone := tg_user_phone in
  let t := (if tg_debug_server then [TgLog LogDebugServer] else [])
           ++ [TgLog (LogConnecting phone)] in
  let '(t', r) := connect phone checks logins in
  (t ++ t', r).

End TelegramClient.

(** ** steam/key_activator.js: logging in *)

Module KeyActivatorInit.

Definition _LOGIN_CODE_REQUIRED : Z := 63.

(** The values [_readFileSentry] can return and the string it is compared
    with. *)
Inductive jsvalue :=
| JSundefined
| JSstring (s : jsstring)
| JSbuffer (bytes : list N).

(** [v !== s] for a string [s]: only an equal string is equal to it. *)
Definition notString (v : jsvalue) (s : jsstring) : bool :=
  match v with
  | JSstring s' => bool_decide (s' ≠ s)
  | _ => true
  end.

(** [logonDetails]; a field that was never assigned is [None]. *)
Record logonDetails := {
  account_name : jsstring;
  password : jsstring;
  sha_sentryfile : option jsvalue;
  auth_code : option jsstring
}.

Inductive steamLog :=
| LogConnectingTo (username : jsstring)
| LogUpdateMachineAuth
| LogReceivedSentry
| LogConnected
| LogLoginSuccess
| LogAuthCodeRequired
| LogLogOnDetails (eresult : Z)
| LogLoginFailed.

Inductive steamEffect :=
| SteamLog (line : steamLog)
| AskUsername
| AskPassword
| AskAuthCode
| Connect                                   (* client.connect() *)
| LogOn (details : logonDetails)            (* steamUser.logOn(logonDetails) *)
| WriteSentry (bytes : list N)              (* fs.writeFileSync(SENTRY_FILE_PATH, _) *)
| MachineAuthCallback (sha_file : list N).

(** The events of the client the handlers of [init] are registered for. *)
Inductive clientEvent :=
| onConnected
| onLogOnResponse (eresult : Z)
| onSentry (bytes : list N)
| onUpdateMachineAuth (bytes : list N).

(** What [init] and its handlers read and write: the module's [_ready],
    the [logonDetails] object, the promise of [init], the sentry file
    ([None] while it does not exist) and the number of auth codes asked. *)
Record state := {
  ready : KeyActivator.state;
  details : logonDetails;
  promise : settled () Z;
  sentryFile : option (list N);
  asked : nat
}.

(** [resolve] and [reject] act on a pending promise only. *)
Definition settle (p new : settled () Z) : settled () Z :=
  match p with
  | Pending => new
  | _ => p
  end.

Section Init.
(** [Steam.EResult.OK], SHA-1, and what the user types at the prompts (the
    auth code may differ from one prompt to the next). *)
Variable EResult_OK : Z.
Variable sha1 : list N -> list N.
Variable typedUsername typedPassword : jsstring.
Variable typedAuthCode : nat -> jsstring.

Definition _makeSHA (bytes : list N) : list N := sha1 bytes.

(** [_readFileSentry], given the file: the digest of a non-empty file, and
    [undefined] when the file is empty or reading it throws. *)
Definition _readFileSentry (file : option (list N)) : jsvalue :=
  match file with
  | Some sentry =>
      if bool_decide (length sentry ≠ 0%nat) then JSbuffer (_makeSHA sentry)
      else JSundefined
  | None => JSundefined
  end.

(** [!v] of an argument: [undefined] and the empty string are false. *)
Definition given (v : option jsstring) : bool :=
  match v with
  | Some (_ :: _) => true
  | _ => false
  end.

(** The body of the executor of [init], up to the registration of the
    handlers. *)
Definition init (username password : option jsstring)
  (file : option (list N)) : list steamEffect * state :=
  let asksUser := if given username then [] else [AskUsername] in
  let username := if given username then default [] username
                  else typedUsername in
  let asksPass := if given password then [] else [AskPassword] in
  let password := if given password then default [] password
                  else typedPassword in
  let mSentry := _readFileSentry file in
  let logonDetails :=
    {| account_name := username; password := password;
       sha_sentryfile :=
         if notString mSentry [] then Some mSentry else None;
       auth_code := None |} in
  (asksUser ++ asksPass ++ [SteamLog (LogConnectingTo username); Connect],
   {| ready := KeyActivator.initial; details := logonDetails;
      promise := Pending; sentryFile := file; asked := 0 |}).

(** The handler that runs for one event of the client. *)
Definition handle (st : state) (ev : clientEvent)
  : list steamEffect * state :=
  match ev with
  | onUpdateMachineAuth bytes =>
      ([SteamLog LogUpdateMachineAuth; WriteSentry bytes;
        MachineAuthCallback (_makeSHA bytes)],
       {| ready := ready st; details := details st; promise := promise st;
          sentryFile := Some bytes; asked := asked st |})
  | onSentry bytes =>
      ([SteamLog LogReceivedSentry; WriteSentry bytes],
       {| ready := ready st; details := details st; promise := promise st;
          sentryFile := Some bytes; asked := asked st |})
  | onConnected => ([SteamLog LogConnected; LogOn (details st)], st)
  | onLogOnResponse code =>
      if code =? EResult_OK then
        ([SteamLog LogLoginSuccess],
         {| ready := {| KeyActivator._ready := true |};
            details := details st;
            promise := settle (promise st) (Resolved ());
            sentryFile := sentryFile st; asked := asked st |})
      else if code =? _LOGIN_CODE_REQUIRED then
        let logonDetails :=
          {| account_name := account_name (details st);
             password := password (details st);
             sha_sentryfile := sha_sentryfile (details st);
             auth_code := Some (typedAuthCode (asked st)) |} in
        ([SteamLog LogAuthCodeRequired; AskAuthCode; Connect;
          LogOn logonDetails],
         {| ready := ready st; details := logonDetails;
            promise := promise st; sentryFile := sentryFile st;
            asked := S (asked st) |})
      else
        ([SteamLog (LogLogOnDetails code); SteamLog LogLoginFailed],
         {| ready := ready st; details := details st;
            promise := settle (promise st)
                         (Rejected KeyActivator.EC_AUTH_FAILED);
            sentryFile := sentryFile st; asked := asked st |})
  end.

(** The handlers run for the events of the client, one after the other. *)
Fixpoint run (st : state) (events : list clientEvent)
  : list steamEffect * state :=
  match events with
  | [] => ([], st)
  | ev :: rest =>
      let '(t, st') := handle st ev in
      let '(t', st'') := run st' rest in
      (t ++ t', st'')
  end.
End Init.

(** The result codes of the log-on responses among the events. *)
Definition responses (events : list clientEvent) : list Z :=
  omap (λ ev, match ev with onLogOnResponse code => Some code | _ => None end)
    events.

(** The bytes of the last sentry or machine-auth event, if any. *)
Definition lastSentry (events : list clientEvent) : option (list N) :=
  last (omap (λ ev, match ev with
                    | onSentry bytes | onUpdateMachineAuth bytes => Some bytes
                    | _ => None
                    end) events).

End KeyActivatorInit.

(** ** telegram/login-2fa.js *)

Module Login2fa.
Import TelegramClient.

Inductive loginLog :=
| LogRequestingAuthKey
| LogCheckingAuthKey
| LogPasswordRequired
| LogCheckingPassword.

Inductive loginEffect :=
| LoginLog (line : loginLog)
| SendCode (phone_number : jsstring)        (* auth.sendCode *)
| AskCode                                   (* questionInt('Telegram auth code: ') *)
| SignIn (phone_number phone_code_hash : jsstring) (phone_code : Z)
| AskPassword                               (* question('Telegram password: ') *)
| GetPassword                               (* account.getPassword *)
| CheckPassword (password_hash : list N)    (* auth.checkPassword *)
| ConsoleLogRes.                            (* console.log("res: " + ...) *)

Section Login.
(** SHA-256, how the four calls of the messaging API settle, and what the
    user types at the two prompts. *)
Variable sha256 : jsstring -> list N.
Variable sendCode : settled jsstring TgError.
Variable signIn : settled User TgError.
Variable getPassword : settled jsstring TgError.
Variable checkPassword : list N -> settled User TgError.
Variable typedCode : Z.
Variable typedPassword : jsstring.

(** The password the check is made with: the argument, or what the user
    types when the argument is [undefined] or empty. *)
Definition passwordUsed (password : option jsstring) : jsstring :=
  if truthy password then default [] password else typedPassword.

(** [login]; the outer [try] rethrows what it catches. *)
Definition login (phone : jsstring) (password : option jsstring)
  : list loginEffect * settled User TgError :=
  let t := [LoginLog LogRequestingAuthKey; SendCode phone] in
  match sendCode with
  | Resolved phone_code_hash =>
      let t := t ++ [AskCode; LoginLog LogCheckingAuthKey;
                     SignIn phone phone_code_hash typedCode] in
      match signIn with
      | Resolved user => (t ++ [ConsoleLogRes], Resolved user)
      | Rejected error =>
          if bool_decide (errorType error = Some SESSION_PASSWORD_NEEDED)
          then
            let t := t ++ [LoginLog LogPasswordRequired]
                       ++ (if truthy password then [] else [AskPassword])
                       ++ [LoginLog LogCheckingPassword; GetPassword] in
            match getPassword with
            | Resolved current_salt =>
                let password_hash :=
                  sha256 (current_salt ++ passwordUsed password
                            ++ current_salt) in
                let t := t ++ [CheckPassword password_hash] in
                match checkPassword password_hash with
                | Resolved user => (t ++ [ConsoleLogRes], Resolved user)
                | Rejected error' => (t, Rejected error')
                | Pending => (t, Pending)
                end
            | Rejected error' => (t, Rejected error')
            | Pending => (t, Pending)
            end
          else (t, Rejected error)
      | Pending => (t, Pending)
      end
  | Rejected error => (t, Rejected error)
  | Pending => (t, Pending)
  end.
End Login.

End Login2fa.

(** * Properties *)

(** ** The regexp engine *)

Section Regexp.
Variable cls : N -> bool.

Lemma span_app s : s = (span cls s).1 ++ (span cls s).2.
Proof.
  induction s as [|c s IH]; simpl; [done|].
  destruct (cls c); [|done].
  destruct (span cls s) as [m r]; simpl in *. by f_equal.
Qed.

Lemma span_Forall s : Forall (λ x, cls x = true) (span cls s).1.
Proof.
  induction s as [|c s IH]; simpl; [constructor|].
  destruct (cls c) eqn:Hc; [|constructor].
  destruct (span cls s) as [m r]; simpl in *. by constructor.
Qed.

(** A run followed by a character outside the class is consumed whole. *)
Lemma span_run run post :
  Forall (λ x, cls x = true) run →
  (∀ c, head post = Some c → cls c = false) →
  span cls (run ++ post) = (run, post).
Proof.
  intros Hrun Hpost. induction Hrun as [|c run Hc _ IH]; simpl.
  - destruct post as [|c post]; [done|].
    simpl. by rewrite (Hpost c eq_refl).
  - by rewrite Hc, IH.
Qed.

(** Behind a string that ends outside the class nothing more is consumed. *)
Lemma span_app_stop pre rest :
  pre ≠ [] →
  (∀ c, last pre = Some c → cls c = false) →
  (span cls (pre ++ rest)).1 = (span cls pre).1.
Proof.
  induction pre as [|c pre IH]; [done|]. intros _ Hlast. simpl.
  destruct (cls c) eqn:Hc; [|done].
  destruct pre as [|c' pre].
  - specialize (Hlast c eq_refl). congruence.
  - assert (H : (span cls ((c' :: pre) ++ rest)).1 = (span cls (c' :: pre)).1).
    { apply IH; [done|]. intros x Hx. apply Hlast. by rewrite last_cons, Hx. }
    destruct (span cls ((c' :: pre) ++ rest)), (span cls (c' :: pre)).
    simpl in *. by f_equal.
Qed.

Lemma hasRun_cons_inv n c s :
  ¬ Spec.hasRun cls n (c :: s) → ¬ Spec.hasRun cls n s.
Proof.
  intros H (a & b & d & -> & Hb & Hn). apply H.
  by exists (c :: a), b, d.
Qed.

(** The engine finds a match exactly when the string has a run. *)
Lemma matchAll_nil_iff n s :
  (0 < n)%nat → matchAll cls n s = [] ↔ ¬ Spec.hasRun cls n s.
Proof.
  intros Hn. split.
  - intros Hnil (a & b & d & -> & Hb & Hlen).
    induction a as [|x a IH]; simpl in *.
    + destruct b as [|c b]; [simpl in *; lia|].
      apply Forall_cons in Hb as [Hc Hb]. simpl in Hnil.
      simp matchAll in Hnil. rewrite Hc in Hnil.
      pose proof (span_app (b ++ d)) as Happ.
      pose proof (span_Forall (b ++ d)) as Hall.
      assert (length b ≤ length (span cls (b ++ d)).1)%nat as Hle.
      { clear -Hb. induction Hb as [|y b Hy _ IH]; simpl; [lia|].
        rewrite Hy. destruct (span cls (b ++ d)); simpl in *. lia. }
      rewrite bool_decide_true in Hnil by (simpl in Hlen; lia). done.
    + simp matchAll in Hnil.
      destruct (cls x); [case_bool_decide|]; try done; by apply IH.
  - induction s as [|c s' IH]; intros Hno; simp matchAll; [done|].
    destruct (cls c) eqn:Hc.
    + case_bool_decide as Hlen.
      * exfalso. apply Hno. exists [], (c :: (span cls s').1), (span cls s').2.
        split; [simpl; f_equal; apply span_app|].
        split; [constructor; [done|apply span_Forall]|]. simpl. lia.
      * apply IH. by eapply hasRun_cons_inv.
    + apply IH. by eapply hasRun_cons_inv.
Qed.

(** The first match of the engine is the leftmost maximal run, and the
    search resumes behind it. *)
Lemma matchAll_first n pre run post :
  (0 < n)%nat →
  Spec.firstMaximalRun cls n pre run post →
  matchAll cls n (pre ++ run ++ post) = run :: matchAll cls n post.
Proof.
  intros Hn (Hrun & Hlen & Hpre & Hpost & Hno).
  induction pre as [|x pre IH]; simpl.
  - destruct run as [|c run]; [simpl in *; lia|].
    apply Forall_cons in Hrun as [Hc Hrun]. simpl. simp matchAll.
    rewrite Hc, (span_run run post Hrun Hpost). simpl.
    rewrite bool_decide_true by (simpl in Hlen; lia). done.
  - assert (matchAll cls n (x :: pre ++ run ++ post)
            = matchAll cls n (pre ++ run ++ post)) as ->.
    { simp matchAll. destruct (cls x) eqn:Hx; [|done].
      destruct pre as [|y pre].
      { specialize (Hpre x eq_refl). congruence. }
      rewrite (span_app_stop (y :: pre) (run ++ post)); [|done|].
      2:{ intros c Hc. apply Hpre. by rewrite last_cons, Hc. }
      rewrite bool_decide_false; [done|]. intros Hle. apply Hno.
      exists [], (x :: (span cls (y :: pre)).1), (span cls (y :: pre)).2.
      split; [simpl; f_equal; apply span_app|].
      split; [constructor; [done|apply span_Forall]|]. cbn [length]. lia. }
    apply IH.
    + intros c Hc. apply Hpre. destruct pre; [done|]. by rewrite last_cons, Hc.
    + by eapply hasRun_cons_inv.
Qed.
End Regexp.

(** ** The key activator *)

Section ActivatorProperties.
Import KeyActivator.

(** C1, counterexample: the response with detail code 9 (already owned)
    and the one with detail code 53 are rejected with the same value,
    [EC_ACTIVATION_FAILED], so no reading of the rejected values tells
    ALREADY_OWNED from the generic failure. *)
Lemma activate_owned_rejected_as_generic :
  (activate 1 (λ _, Some owned) readySession (lit "AB12C-DE34F-GH56I")).2
    = Rejected EC_ACTIVATION_FAILED
  ∧ (activate 1 (λ _, Some throttled) readySession
       (lit "AB12C-DE34F-GH56I")).2
    = Rejected EC_ACTIVATION_FAILED
  ∧ Spec.kindOfDetail 9 ≠ Spec.kindOfDetail 53
  ∧ ∀ kind, ¬ rejectsWithKindOfDetail kind.
Proof.
  split; [reflexivity|]. split; [reflexivity|].
  split; [by vm_compute|].
  intros kind Hclaim.
  destruct (Hclaim 1 (λ _, Some owned) readySession
              (lit "AB12C-DE34F-GH56I") owned) as (e1 & He1 & Hk1);
    [done..|].
  destruct (Hclaim 1 (λ _, Some throttled) readySession
              (lit "AB12C-DE34F-GH56I") throttled) as (e2 & He2 & Hk2);
    [done..|].
  vm_compute in He1, He2. injection He1 as <-. injection He2 as <-.
  vm_compute in Hk1, Hk2. congruence.
Qed.

(** What [activate] does on a response that is not OK. *)
Lemma activate_rejects_by_detail_body OK activateKey st cdKey r :
  _ready st = true →
  activateKey (trim cdKey) = Some r →
  eresult r ≠ OK →
  activate OK activateKey st cdKey
  = ([Log (LogAttempt (trim cdKey)); Redeem (trim cdKey);
      Log (failure (trim cdKey) r).2],
     Rejected (failure (trim cdKey) r).1).
Proof.
  intros Hready Hresp Hcode. unfold activate.
  rewrite Hready, Hresp. simpl.
  destruct (eresult r =? OK) eqn:Heq; [lia|].
  by destruct (failure (trim cdKey) r).
Qed.

(** C1, amended: a response that is not OK is rejected with
    [EC_ACTIVATION_FAILED_ALREADY_ACTIVATED] when its detail code is 15 and
    with the generic [EC_ACTIVATION_FAILED] for every other detail code, 9,
    14 and 53 included; the detail codes 9 and 14 only choose the log
    line. Exactly one redemption request is issued. *)
Theorem activate_rejects_by_detail OK activateKey st cdKey r :
  _ready st = true →
  activateKey (trim cdKey) = Some r →
  eresult r ≠ OK →
  let details := purchase_result_details r in
  activate OK activateKey st cdKey
  = ([Log (LogAttempt (trim cdKey)); Redeem (trim cdKey);
      Log (if details =? 9 then
             LogAlreadyOwn (trim cdKey) (getGameName r) details
           else if details =? 14 then LogInvalid (trim cdKey) details
           else if details =? 15 then
             LogAlreadyActivated (trim cdKey) (getGameName r) details
           else LogActivationFailed (trim cdKey) details)],
     Rejected (if details =? 15
               then EC_ACTIVATION_FAILED_ALREADY_ACTIVATED
               else EC_ACTIVATION_FAILED)).
Proof.
  intros Hready Hresp Hcode details. unfold activate.
  rewrite Hready, Hresp. simpl.
  destruct (eresult r =? OK) eqn:Heq; [lia|].
  unfold failure. fold details.
  destruct (details =? 9) eqn:H9; [by replace details with 9 by lia|].
  destruct (details =? 14) eqn:H14; [by replace details with 14 by lia|].
  by destruct (details =? 15).
Qed.

Lemma activate_rejects_by_detail_witness :
  _ready readySession = true
  ∧ eresult owned ≠ 1
  ∧ activate 1 (λ _, Some owned) readySession (lit " ab12c-de34f ")
    = ([Log (LogAttempt (lit "ab12c-de34f")); Redeem (lit "ab12c-de34f");
        Log (LogAlreadyOwn (lit "ab12c-de34f") (lit "Some Game") 9)],
       Rejected EC_ACTIVATION_FAILED).
Proof.
  split; [reflexivity|]. split; [vm_compute; congruence|].
  apply (activate_rejects_by_detail 1 (λ _, Some owned) readySession
           (lit " ab12c-de34f ") owned);
    [reflexivity | reflexivity | vm_compute; congruence].
Defined.

(** C3: while the session is not ready, [activate] only logs and rejects
    with [EC_NOT_INITED], whatever the input string: no redemption request
    reaches the session and the process is not exited. *)
Theorem activate_not_ready OK activateKey st cdKey :
  _ready st = false →
  activate OK activateKey st cdKey
  = ([Log LogNotInitialised], Rejected EC_NOT_INITED)
  ∧ (∀ key, Redeem key ∉ (activate OK activateKey st cdKey).1)
  ∧ ProcessExit ∉ (activate OK activateKey st cdKey).1.
Proof.
  intros Hready. unfold activate. rewrite Hready. simpl.
  split; [done|]. split; [intros key|]; by intros [?|[]%elem_of_nil]%elem_of_cons.
Qed.

Lemma activate_not_ready_witness :
  _ready initial = false
  ∧ activate 1 (λ _, Some owned) initial (lit "AB12C-DE34F-GH56I")
    = ([Log LogNotInitialised], Rejected EC_NOT_INITED)
  ∧ (∀ key, Redeem key
            ∉ (activate 1 (λ _, Some owned) initial
                 (lit "AB12C-DE34F-GH56I")).1)
  ∧ ProcessExit
    ∉ (activate 1 (λ _, Some owned) initial (lit "AB12C-DE34F-GH56I")).1.
Proof.
  split; [reflexivity|].
  apply (activate_not_ready 1 (λ _, Some owned) initial
           (lit "AB12C-DE34F-GH56I")).
  reflexivity.
Defined.

(** The older activator of steam/steam.js maps detail code 53, and only
    it, to [EC_ACTIVATION_FAILED_ALREADY_ACTIVATED]. *)
Lemma legacy_activate_rejects_by_detail OK activateKey keyCd r :
  activateKey keyCd = Some r →
  eresult r ≠ OK →
  (SteamLegacy.activate OK activateKey true keyCd).2
  = Rejected (if purchase_result_details r =? 53
              then EC_ACTIVATION_FAILED_ALREADY_ACTIVATED
              else EC_ACTIVATION_FAILED).
Proof.
  intros Hresp Hcode. unfold SteamLegacy.activate. simpl. rewrite Hresp.
  destruct (eresult r =? OK) eqn:Heq; [lia|].
  by destruct (purchase_result_details r =? 53).
Qed.
End ActivatorProperties.

(** ** The text filter *)

Section TextFilterProperties.
Import G2Keys.

Lemma eventsFilter_channelMessage st body attachment :
  eventsFilter st (channelMessage chatId body attachment)
  = if bool_decide (lastMsg st = body) then (st, None)
    else ({| lastMsg := body |}, Some body).
Proof.
  unfold channelMessage. simpl.
  do 2 case_bool_decide; done.
Qed.

(** C4, counterexample: from the initial state the empty body followed by
    a different body, and after a body [a] the bodies [a], [b]: in both
    pairs the bodies differ and the first event yields no extraction. *)
Lemma text_filter_first_of_distinct_suppressed :
  let a := lit "AB12C-DE34F-GH56I" in
  let b := lit "JK78L-MN90P-QR12S" in
  ([] : jsstring) ≠ a
  ∧ (eventsFilter initial (channelMessage chatId [] None)).2 = None
  ∧ a ≠ b
  ∧ (eventsFilter (eventsFilter initial (channelMessage chatId a None)).1
       (channelMessage chatId a None)).2 = None.
Proof. by vm_compute. Qed.

(** C4, amended: the filter retains the last body it returned. Of two
    consecutive new-channel-message events on the channel, the first
    yields its body exactly when the body differs from the retained one
    (the empty string at process start), and leaves its body retained
    either way; the second yields nothing when the bodies are identical
    and yields its body when they differ. *)
Theorem text_filter_dedup st body1 body2 attachment1 attachment2 :
  let first := eventsFilter st (channelMessage chatId body1 attachment1) in
  let second :=
    eventsFilter first.1 (channelMessage chatId body2 attachment2) in
  first.2 = (if bool_decide (lastMsg st = body1) then None else Some body1)
  ∧ lastMsg first.1 = body1
  ∧ second.2 = (if bool_decide (body1 = body2) then None else Some body2)
  ∧ lastMsg second.1 = body2.
Proof.
  intros first second. subst second first.
  rewrite !eventsFilter_channelMessage.
  destruct (decide (lastMsg st = body1)) as [H1|H1];
    [rewrite !(bool_decide_true _ H1) | rewrite !(bool_decide_false _ H1)];
    simpl;
    (destruct (decide (body1 = body2)) as [H2|H2];
     [rewrite !bool_decide_true by congruence
     |rewrite !bool_decide_false by congruence]);
    simpl; repeat split; congruence.
Qed.

(** C10: the retained body starts as the empty string, so the first
    new-channel-message event on the channel, when its body is empty, is
    suppressed as a repeat: the filter yields nothing, the state stays as
    it was and the listener does nothing. *)
Theorem text_filter_empty_first_body OK activateKey ka attachment :
  lastMsg initial = []
  ∧ eventsFilter initial (channelMessage chatId [] attachment)
    = (initial, None)
  ∧ onEvent OK activateKey ka initial (channelMessage chatId [] attachment)
    = (initial, [], Return ()).
Proof.
  split; [done|]. unfold onEvent.
  by rewrite eventsFilter_channelMessage.
Qed.

Lemma String_match_null body :
  ¬ Spec.hasRun keyChar 5 body → String_match keyChar 5 body = JSnull.
Proof.
  intros Hno. unfold String_match.
  by rewrite (proj2 (matchAll_nil_iff keyChar 5 body ltac:(lia)) Hno).
Qed.

(** C2, the failing path: a body without a run of five key characters
    makes [match] return [null], [parseCdKey] throws reading its length,
    the listener lets the exception through and so does [emit], in
    whichever order the two handlers were loaded: it reaches the
    dispatcher. *)
Theorem text_listener_throws_without_run
  OK activateKey loadImage writeFileSync tesseract w body attachment :
  ¬ Spec.hasRun keyChar 5 body →
  lastMsg (Bot.g2keys w) ≠ body →
  parseCdKey body = ([Log (LogProbablyKeys JSnull)], Throw nullLength)
  ∧ onEvent OK activateKey (Bot.activator w) (Bot.g2keys w)
      (channelMessage chatId body attachment)
    = ({| lastMsg := body |}, [Log (LogProbablyKeys JSnull)],
       Throw nullLength)
  ∧ EventHandler.emit
      (Bot.listeners OK activateKey loadImage writeFileSync tesseract) w
      (channelMessage chatId body attachment)
    = ({| Bot.activator := Bot.activator w;
          Bot.g2keys := {| lastMsg := body |} |},
       [Log (LogProbablyKeys JSnull)], Throw nullLength)
  ∧ EventHandler.emit
      (reverse (Bot.listeners OK activateKey loadImage writeFileSync
                  tesseract)) w
      (channelMessage chatId body attachment)
    = ({| Bot.activator := Bot.activator w;
          Bot.g2keys := {| lastMsg := body |} |},
       [Log (LogProbablyKeys JSnull)], Throw nullLength).
Proof.
  intros Hno Hnew.
  assert (parseCdKey body = ([Log (LogProbablyKeys JSnull)], Throw nullLength))
    as Hparse.
  { unfold parseCdKey. by rewrite String_match_null. }
  assert (onEvent OK activateKey (Bot.activator w) (Bot.g2keys w)
            (channelMessage chatId body attachment)
          = ({| lastMsg := body |}, [Log (LogProbablyKeys JSnull)],
             Throw nullLength)) as Hon.
  { unfold onEvent. rewrite eventsFilter_channelMessage.
    rewrite bool_decide_false by done. by rewrite Hparse. }
  split; [done|]. split; [done|].
  unfold Bot.listeners, reverse, EventHandler.emit, Bot.imageListener,
    Bot.textListener; simpl rev_append.
  replace (FreebieSteam.onEvent OK activateKey loadImage writeFileSync
             tesseract (Bot.activator w)
             (channelMessage chatId body attachment))
    with (([] : trace), Return ()) by done.
  by rewrite Hon.
Qed.

Lemma text_listener_throws_without_run_witness :
  let w := {| Bot.activator := KeyActivator.initial;
              Bot.g2keys := initial |} in
  let idle := λ _ : string, inl (Error []) : reason + jsstring in
  ¬ Spec.hasRun keyChar 5 (lit "hello")
  ∧ lastMsg (Bot.g2keys w) ≠ lit "hello"
  ∧ EventHandler.emit
      (Bot.listeners 1 (λ _, None) (λ _, Pending) (λ _ _, None) idle) w
      (channelMessage chatId (lit "hello") None)
    = ({| Bot.activator := KeyActivator.initial;
          Bot.g2keys := {| lastMsg := lit "hello" |} |},
       [Log (LogProbablyKeys JSnull)], Throw nullLength).
Proof.
  intros w idle.
  assert (¬ Spec.hasRun keyChar 5 (lit "hello")) as Hno.
  { apply (matchAll_nil_iff keyChar 5); [lia|]. reflexivity. }
  split; [exact Hno|]. split; [by vm_compute|].
  apply (text_listener_throws_without_run 1 (λ _, None) (λ _, Pending)
           (λ _ _, None) idle w (lit "hello") None Hno).
  by vm_compute.
Defined.

(** The image listener throws only when its filter does: once the promise
    chain is started, nothing comes back to [emit]. *)
Lemma image_listener_throws_only_in_filter
  OK activateKey loadImage writeFileSync tesseract ka eventData e :
  (FreebieSteam.onEvent OK activateKey loadImage writeFileSync tesseract ka
     eventData).2 = Throw e →
  FreebieSteam.eventsFilter eventData = Throw e.
Proof.
  unfold FreebieSteam.onEvent.
  destruct (FreebieSteam.eventsFilter eventData) as [[fi|]|e'];
    simpl; congruence.
Qed.

(** A rejection of [activate] in the image chain ends in the chain's
    [catch], as a log line. *)
Lemma image_pipeline_logs_rejection
  OK activateKey loadImage writeFileSync tesseract fi imageBuffer text r :
  loadImage (FreebieSteam.fi_location fi) = Resolved imageBuffer →
  writeFileSync (FreebieSteam.imagePathOf (FreebieSteam.fi_id fi)) imageBuffer
  = None →
  tesseract (FreebieSteam.imagePathOf (FreebieSteam.fi_id fi)) = inr text →
  activateKey (trim (FreebieSteam.normalize text)) = Some r →
  KeyActivator.eresult r ≠ OK →
  ∃ e, last (FreebieSteam.pipeline OK activateKey loadImage writeFileSync
               tesseract readySession fi)
       = Some (Log (LogHandlerError (Number e))).
Proof.
  intros Hload Hwrite Hocr Hresp Hcode. unfold FreebieSteam.pipeline.
  rewrite Hload, Hwrite, Hocr. unfold FreebieSteam.filterCdKeyText.
  rewrite (activate_rejects_by_detail_body OK activateKey readySession
             (FreebieSteam.normalize text) r eq_refl Hresp Hcode).
  eexists. unfold FreebieSteam.onRejected.
  rewrite !app_assoc. apply last_snoc.
Qed.

(** An OCR error is not rejected into the chain: the callback calls
    [utils.error], which [utils] does not export, and throws. *)
Lemma image_pipeline_ocr_error_uncaught
  OK activateKey loadImage writeFileSync tesseract ka fi imageBuffer err :
  loadImage (FreebieSteam.fi_location fi) = Resolved imageBuffer →
  writeFileSync (FreebieSteam.imagePathOf (FreebieSteam.fi_id fi)) imageBuffer
  = None →
  tesseract (FreebieSteam.imagePathOf (FreebieSteam.fi_id fi)) = inl err →
  last (FreebieSteam.pipeline OK activateKey loadImage writeFileSync
          tesseract ka fi)
  = Some (Uncaught FreebieSteam.utilsErrorMissing).
Proof.
  intros Hload Hwrite Hocr. unfold FreebieSteam.pipeline.
  by rewrite Hload, Hwrite, Hocr.
Qed.

Lemma example_firstMaximalRun :
  Spec.firstMaximalRun keyChar 5 examplePre exampleRun examplePost.
Proof.
  split; [by apply Forall_forall; vm_compute; intros x Hx;
          repeat (apply elem_of_cons in Hx as [->|Hx]; [reflexivity|]);
          apply elem_of_nil in Hx|].
  split; [vm_compute; lia|].
  split; [by intros c [= <-]|]. split; [by intros c [= <-]|].
  apply (matchAll_nil_iff keyChar 5); [lia|]. reflexivity.
Qed.

(** C5, counterexample: in the message of the example the leftmost
    maximal run is the key with the space before and the space behind it,
    and that run is not what [parseCdKey] returns. *)
Lemma parseCdKey_not_the_run_itself :
  lit "Get your key: AB12C-DE34F-GH56I now!"
  = examplePre ++ exampleRun ++ examplePost
  ∧ Spec.firstMaximalRun keyChar 5 examplePre exampleRun examplePost
  ∧ (parseCdKey (examplePre ++ exampleRun ++ examplePost)).2
    ≠ Return (Some exampleRun).
Proof.
  split; [reflexivity|]. split; [apply example_firstMaximalRun|].
  by vm_compute.
Qed.

(** C5, amended: when the body has a run of at least five key characters,
    [parseCdKey] returns the leftmost maximal one with the white space at
    its two ends trimmed; for the message of the example that is exactly
    the key. *)
Theorem parseCdKey_first_run_trimmed :
  (∀ pre run post,
     Spec.firstMaximalRun keyChar 5 pre run post →
     parseCdKey (pre ++ run ++ post)
     = ([Log (LogProbablyKeys (JSarray (run :: matchAll keyChar 5 post)));
         Log (LogFoundKey (trim run))],
        Return (Some (trim run))))
  ∧ (parseCdKey (lit "Get your key: AB12C-DE34F-GH56I now!")).2
    = Return (Some (lit "AB12C-DE34F-GH56I")).
Proof.
  split; [|reflexivity].
  intros pre run post Hrun. unfold parseCdKey, String_match.
  by rewrite (matchAll_first keyChar 5 pre run post ltac:(lia) Hrun).
Qed.

Lemma parseCdKey_first_run_trimmed_witness :
  Spec.firstMaximalRun keyChar 5 examplePre exampleRun examplePost
  ∧ parseCdKey (examplePre ++ exampleRun ++ examplePost)
    = ([Log (LogProbablyKeys (JSarray [exampleRun]));
        Log (LogFoundKey (lit "AB12C-DE34F-GH56I"))],
       Return (Some (lit "AB12C-DE34F-GH56I"))).
Proof.
  split; [apply example_firstMaximalRun|].
  apply (proj1 parseCdKey_first_run_trimmed examplePre exampleRun
           examplePost example_firstMaximalRun).
Defined.
End TextFilterProperties.

(** ** Normalisation of scanned text *)

Section NormalizeProperties.
Import FreebieSteam.

(** Case analysis on every comparison of code units in the goal. *)
Ltac code_unit_cases :=
  repeat match goal with
    | |- context [(?a =? ?b)%N] => destruct (N.eqb_spec a b)
    | |- context [(?a <=? ?b)%N] => destruct (N.leb_spec a b)
    end;
  simpl; try done; try lia.

Lemma String_replace_delete cls s :
  String_replace cls [] s = List.filter (λ c, negb (cls c)) s.
Proof.
  induction s as [|c s IH]; simpl; [done|].
  destruct (cls c); simpl; by rewrite IH.
Qed.

Lemma String_replace_one cls d s :
  String_replace cls [d] s = (λ c, if cls c then d else c) <$> s.
Proof.
  induction s as [|c s IH]; simpl; [done|].
  destruct (cls c); simpl; by rewrite IH.
Qed.

Lemma anyDash_dashOf c : (if anyDash c then DASH else c) = Spec.dashOf c.
Proof.
  unfold anyDash, Spec.dashOf, EM_DASH, DASH. code_unit_cases.
Qed.

(** What the two [replace] calls compute together. *)
Lemma normalize_filter_map s :
  normalize s = Spec.dashOf <$> List.filter (λ c, negb (notKeyText c)) s.
Proof.
  unfold normalize. rewrite String_replace_delete, String_replace_one.
  apply list_fmap_ext. intros _ c _. apply anyDash_dashOf.
Qed.

Lemma keyChar_survivor c :
  G2Keys.keyChar c = true → negb (notKeyText c) = true →
  Spec.keyTextChar (Spec.dashOf c) = true.
Proof.
  intros Hkey Hkeep. unfold Spec.dashOf.
  destruct (N.eqb_spec c EM_DASH) as [->|Hem]; [reflexivity|].
  assert (c ≠ SPACE) as Hsp by (intros ->; by vm_compute in Hkeep).
  revert Hkey Hem Hsp.
  unfold G2Keys.keyChar, Spec.keyTextChar, isUpper, isLower, isDigit,
    in_range, SPACE, EM_DASH, DASH.
  rewrite !orb_true_iff, !andb_true_iff, !N.eqb_eq, !N.leb_le. lia.
Qed.

Lemma survivor_settled c :
  negb (notKeyText c) = true → settledChar (Spec.dashOf c).
Proof.
  intros Hkeep. unfold settledChar, Spec.dashOf.
  destruct (N.eqb_spec c EM_DASH) as [->|Hem]; [by split|].
  split; [done|]. by rewrite (proj2 (N.eqb_neq c EM_DASH) Hem).
Qed.

Lemma normalize_settled s : Forall settledChar (normalize s).
Proof.
  rewrite normalize_filter_map. apply Forall_fmap, Forall_forall.
  intros c Hc. apply survivor_settled.
  apply list_elem_of_In, filter_In in Hc. tauto.
Qed.

Lemma normalize_fixes_settled s : Forall settledChar s → normalize s = s.
Proof.
  rewrite normalize_filter_map.
  induction 1 as [|c s [Hkeep Hdash] _ IH]; simpl; [done|].
  rewrite Hkeep. rewrite fmap_cons, Hdash. f_equal. exact IH.
Qed.

(** C6: on a run of at least five key characters, [normalize] deletes and
    rewrites code units in place, so what survives keeps its order, and
    only characters of [[A-Za-z0-9-]] survive. *)
Theorem normalize_of_run s :
  Forall (λ c, G2Keys.keyChar c = true) s →
  (5 ≤ length s)%nat →
  Forall (λ c, Spec.keyTextChar c = true) (normalize s)
  ∧ normalize s = Spec.dashOf <$> List.filter (λ c, negb (notKeyText c)) s
  ∧ sublist (normalize s) (Spec.dashOf <$> s).
Proof.
  intros Hrun _. split; [|split; [apply normalize_filter_map|]].
  - rewrite normalize_filter_map. apply Forall_fmap, Forall_forall.
    intros c Hc. apply list_elem_of_In, filter_In in Hc as [Hin Hkeep].
    apply keyChar_survivor; [|done].
    by apply (proj1 (Forall_forall _ _) Hrun), list_elem_of_In.
  - rewrite normalize_filter_map. apply fmap_sublist.
    clear Hrun. induction s as [|c s IH]; simpl; [constructor|].
    destruct (negb (notKeyText c)); by constructor.
Qed.

Lemma normalize_of_run_witness :
  let s := [65; 66; SPACE; EM_DASH; 49; 50; DASH; 67]%N in
  Forall (λ c, G2Keys.keyChar c = true) s
  ∧ (5 ≤ length s)%nat
  ∧ normalize s = lit "AB-12-C"
  ∧ Forall (λ c, Spec.keyTextChar c = true) (normalize s).
Proof.
  intros s.
  assert (Forall (λ c, G2Keys.keyChar c = true) s) as Hrun
    by (repeat constructor).
  assert (5 ≤ length s)%nat as Hlen by (simpl; lia).
  split; [exact Hrun|]. split; [exact Hlen|]. split; [reflexivity|].
  exact (proj1 (normalize_of_run s Hrun Hlen)).
Defined.

(** C7: [normalize] is idempotent on every string. *)
Theorem normalize_idempotent s : normalize (normalize s) = normalize s.
Proof. apply normalize_fixes_settled, normalize_settled. Qed.

(** Outside the runs of key characters the character set is wider: an
    underscore is a word character and survives. *)
Lemma normalize_keeps_underscore :
  normalize (lit "A_B c") = lit "A_Bc".
Proof. reflexivity. Qed.
End NormalizeProperties.

(** ** The image filter *)

Section ImageFilterProperties.
Import FreebieSteam.

Lemma scan_cons u rest :
  scan (u :: rest)
  = match photoMessage u with
    | None => scan rest
    | Some photo =>
        match last (sizes photo) with
        | None => Throw undefinedLocation
        | Some l => Return (Some (fileInfoOf photo l))
        end
    end.
Proof.
  destruct u as [m|tag]; simpl; [|done].
  destruct (decide (channel_id_of (to_id m) = Some chatId)) as [Hchat|Hchat].
  - rewrite (bool_decide_false (_ ≠ _)) by (intros H; by apply H).
    destruct (media m) as [[photo|tag]|]; [|done..].
    destruct (decide (message m = [])) as [Htext|Htext].
    + rewrite (bool_decide_false (_ ≠ _)) by (intros H; by apply H).
      by rewrite bool_decide_true.
    + rewrite (bool_decide_true (_ ≠ _)) by done.
      by rewrite bool_decide_false by (by intros [_ ?]).
  - rewrite (bool_decide_true (_ ≠ _)) by done.
    destruct (media m) as [[photo|tag]|]; [|done..].
    by rewrite bool_decide_false by (by intros [? _]).
Qed.

Lemma scan_returns updateArray fi :
  scan updateArray = Return (Some fi) →
  ∃ u photo l, u ∈ updateArray ∧ photoMessage u = Some photo
               ∧ last (sizes photo) = Some l ∧ fi = fileInfoOf photo l.
Proof.
  induction updateArray as [|u rest IH]; [done|]. rewrite scan_cons.
  destruct (photoMessage u) as [photo|] eqn:Hu.
  - destruct (last (sizes photo)) as [l|] eqn:Hl; [|done].
    intros [= <-]. exists u, photo, l. split; [left|done].
  - intros (u' & photo & l & Hin & H)%IH. exists u', photo, l.
    split; [by right|done].
Qed.

Lemma scan_first pre u post photo l :
  Forall (λ x, photoMessage x = None) pre →
  photoMessage u = Some photo →
  last (sizes photo) = Some l →
  scan (pre ++ u :: post) = Return (Some (fileInfoOf photo l)).
Proof.
  intros Hpre Hu Hl. induction Hpre as [|x pre Hx _ IH]; simpl app.
  - by rewrite scan_cons, Hu, Hl.
  - by rewrite scan_cons, Hx.
Qed.

(** C8: the filter returns something only for an [updates] event with a
    new channel message on its channel that has an empty text and a photo,
    and what it returns is the location (and size) of the last entry of
    that photo's size list with the photo's identifier; it does so for the
    first such update of every event, whatever stands before or behind it;
    for the sizes 10, 50, 200 the entry of size 200 is selected. *)
Theorem image_filter_selects_last :
  (∀ eventData fi,
     eventsFilter eventData = Return (Some fi) →
     ∃ updateArray u photo l,
       eventData = updates updateArray ∧ u ∈ updateArray
       ∧ photoMessage u = Some photo
       ∧ last (sizes photo) = Some l
       ∧ fi = {| fi_location := location l; fi_size := size l;
                 fi_id := photo_id photo |})
  ∧ (∀ pre u post photo init l,
       Forall (λ x, photoMessage x = None) pre →
       photoMessage u = Some photo →
       sizes photo = init ++ [l] →
       eventsFilter (updates (pre ++ u :: post))
       = Return (Some {| fi_location := location l; fi_size := size l;
                         fi_id := photo_id photo |}))
  ∧ eventsFilter
      (channelMessage chatId [] (Some (messageMediaPhoto examplePhoto)))
    = Return (Some {| fi_location := somewhere 3; fi_size := 200;
                      fi_id := "5321" |}).
Proof.
  split; [|split; [|reflexivity]].
  - intros [updateArray|tag] fi; simpl; [|done].
    intros (u & photo & l & H)%scan_returns. by exists updateArray, u, photo, l.
  - intros pre u post photo init l Hpre Hu Hsizes. simpl.
    apply scan_first; [done..|]. by rewrite Hsizes, last_snoc.
Qed.

Lemma image_filter_selects_last_witness :
  let noise := updateOther "updateUserStatus" in
  let u := updateNewChannelMessage
             {| to_id := peerChannel chatId; message := [];
                media := Some (messageMediaPhoto examplePhoto) |} in
  photoMessage noise = None
  ∧ photoMessage u = Some examplePhoto
  ∧ eventsFilter (updates ([noise] ++ u :: [noise]))
    = Return (Some {| fi_location := somewhere 3; fi_size := 200;
                      fi_id := "5321" |}).
Proof.
  intros noise u. split; [reflexivity|]. split; [reflexivity|].
  apply (proj1 (proj2 image_filter_selects_last) [noise] u [noise]
           examplePhoto
           [ {| location := somewhere 1; size := 10 |};
             {| location := somewhere 2; size := 50 |} ]
           {| location := somewhere 3; size := 200 |});
    [repeat constructor | reflexivity | reflexivity].
Defined.

(** A photo without sizes makes the filter throw instead of returning. *)
Lemma image_filter_no_sizes :
  eventsFilter
    (channelMessage chatId []
       (Some (messageMediaPhoto {| photo_id := "5321"; sizes := [] |})))
  = Throw undefinedLocation.
Proof. reflexivity. Qed.
End ImageFilterProperties.

(** ** Loading the handlers at start-up *)

Section StartupProperties.
Import EventHandler Index.

(** C9: with no entry in the handlers folder [loadHandlers] rejects with
    the no-handlers error, and once both sessions are up the start-up
    chain hands that rejection to its final [catch], which logs it and
    exits the process; with [n > 0] entries [loadHandlers] requires each
    of them, in order, and resolves with [n]. *)
Theorem loadHandlers_startup :
  loadHandlers []
  = ([Log LogConnectingHandlers; Log LogNoHandlers], Rejected NoHandlers)
  ∧ (∀ steam telegram,
       main (steam, Resolved ()) (telegram, Resolved ()) []
       = (steam ++ [Log LogSteamReady] ++ telegram
          ++ [Log LogTelegramReady; Log LogConnectingHandlers;
              Log LogNoHandlers; Log (LogRuntimeError NoHandlers);
              ProcessExit],
          Resolved ()))
  ∧ (∀ files,
       (0 < length files)%nat →
       loadHandlers files
       = ([Log LogConnectingHandlers;
           Log (LogFoundHandlers (length files) files)]
          ++ ((λ file, RequireModule ("../handler/" +:+ file)) <$> files),
          Resolved (length files))).
Proof.
  split; [reflexivity|]. split.
  - intros steam telegram. unfold main, then_, catch_, log. simpl.
    f_equal. by rewrite <- !app_assoc.
  - intros files Hlen. unfold loadHandlers.
    rewrite bool_decide_false by lia. done.
Qed.

Lemma loadHandlers_startup_witness :
  let files := ["freebie_steam-handler.js"; "g2keys-handler.js"] in
  (0 < length files)%nat
  ∧ loadHandlers files
    = ([Log LogConnectingHandlers; Log (LogFoundHandlers 2 files);
        RequireModule "../handler/freebie_steam-handler.js";
        RequireModule "../handler/g2keys-handler.js"],
       Resolved 2%nat).
Proof.
  intros files. split; [simpl; lia|].
  apply (proj2 (proj2 loadHandlers_startup) files). simpl. lia.
Defined.

(** With handlers present the chain goes on to start the dispatcher and
    does not exit. *)
Lemma main_with_handlers steam telegram files :
  (0 < length files)%nat →
  (main (steam, Resolved ()) (telegram, Resolved ()) files).2 = Resolved ()
  ∧ ProcessExit ∉ (loadHandlers files).1.
Proof.
  intros Hlen. unfold main, then_, catch_, log, loadHandlers.
  rewrite bool_decide_false by lia. simpl. split; [done|].
  rewrite !elem_of_cons, list_elem_of_fmap.
  intros [?|[?|(file & ? & _)]]; done.
Qed.
End StartupProperties.


(** ** White space at the ends of a string *)

Section TrimProperties.

Lemma trimStart_head s c :
  head (trimStart s) = Some c → isWhiteSpace c = false.
Proof.
  induction s as [|x s IH]; simpl; [done|].
  destruct (isWhiteSpace x) eqn:Hx; [done|]. simpl. by intros [= <-].
Qed.

Lemma trimStart_fixed s :
  (∀ c, head s = Some c → isWhiteSpace c = false) → trimStart s = s.
Proof. destruct s as [|x s]; simpl; [done|]. intros H. by rewrite (H x). Qed.

(** What [trimStart] drops is white space in front. *)
Lemma trimStart_suffix s :
  ∃ ws, s = ws ++ trimStart s ∧ Forall (λ c, isWhiteSpace c = true) ws.
Proof.
  induction s as [|x s (ws & IH & Hws)]; simpl; [by exists []|].
  destruct (isWhiteSpace x) eqn:Hx.
  - exists (x :: ws). split; [by rewrite IH at 1|by constructor].
  - by exists [].
Qed.

Lemma trimEnd_last s c :
  last (trimEnd s) = Some c → isWhiteSpace c = false.
Proof.
  unfold trimEnd. rewrite List.rev_alt. fold (reverse (trimStart (rev s))).
  rewrite last_reverse. apply trimStart_head.
Qed.

(** What [trimEnd] drops is white space behind. *)
Lemma trimEnd_prefix s :
  ∃ ws, s = trimEnd s ++ ws ∧ Forall (λ c, isWhiteSpace c = true) ws.
Proof.
  unfold trimEnd. destruct (trimStart_suffix (rev s)) as (ws & Heq & Hws).
  exists (rev ws). split.
  - rewrite <- List.rev_app_distr, <- Heq. by rewrite List.rev_involutive.
  - apply Forall_forall. intros c Hc. apply list_elem_of_In, List.in_rev in Hc.
    by apply (proj1 (Forall_forall _ _) Hws), list_elem_of_In.
Qed.

Lemma trimEnd_fixed s :
  (∀ c, last s = Some c → isWhiteSpace c = false) → trimEnd s = s.
Proof.
  intros H. unfold trimEnd. rewrite trimStart_fixed.
  - apply List.rev_involutive.
  - intros c Hc. apply H. rewrite <- Hc.
    rewrite List.rev_alt. fold (reverse s). by rewrite head_reverse.
Qed.

Lemma trim_head s c : head (trim s) = Some c → isWhiteSpace c = false.
Proof.
  unfold trim. destruct (trimEnd_prefix (trimStart s)) as (ws & Heq & _).
  intros Hc. apply (trimStart_head s). rewrite Heq.
  destruct (trimEnd (trimStart s)); [done|]. exact Hc.
Qed.

Lemma trim_last s c : last (trim s) = Some c → isWhiteSpace c = false.
Proof. apply trimEnd_last. Qed.

(** A trimmed string is the string without the white space at its ends. *)
Lemma trim_infix s :
  ∃ ws1 ws2, s = ws1 ++ trim s ++ ws2
             ∧ Forall (λ c, isWhiteSpace c = true) ws1
             ∧ Forall (λ c, isWhiteSpace c = true) ws2.
Proof.
  destruct (trimStart_suffix s) as (ws1 & H1 & Hws1).
  destruct (trimEnd_prefix (trimStart s)) as (ws2 & H2 & Hws2).
  exists ws1, ws2. unfold trim. by rewrite <- H2.
Qed.

Lemma trim_fixed s :
  (∀ c, head s = Some c → isWhiteSpace c = false) →
  (∀ c, last s = Some c → isWhiteSpace c = false) →
  trim s = s.
Proof.
  intros Hh Hl. unfold trim. rewrite (trimStart_fixed s Hh).
  by apply trimEnd_fixed.
Qed.

Lemma trim_idempotent s : trim (trim s) = trim s.
Proof. apply trim_fixed; [apply trim_head|apply trim_last]. Qed.

End TrimProperties.

(** ** More on the key activator *)

Section ActivatorRequests.
Import KeyActivator.

(** Trimming the key before the call changes nothing: [activate] trims it
    itself, and a trimmed key stays as it is. *)
Theorem activate_trims OK activateKey st cdKey :
  activate OK activateKey st (trim cdKey) = activate OK activateKey st cdKey.
Proof. unfold activate. by rewrite trim_idempotent. Qed.

Lemma redeems_activate OK activateKey st cdKey :
  redeems (activate OK activateKey st cdKey).1
  = if _ready st then [trim cdKey] else [].
Proof.
  unfold activate. destruct (_ready st); simpl; [|done].
  destruct (activateKey (trim cdKey)) as [r|]; [|done].
  destruct (eresult r =? OK); [done|].
  by destruct (failure (trim cdKey) r).
Qed.

Lemma activate_ready_not_inited OK activateKey st cdKey :
  _ready st = true →
  (activate OK activateKey st cdKey).2 ≠ Rejected EC_NOT_INITED.
Proof.
  intros Hready. unfold activate. rewrite Hready. simpl.
  destruct (activateKey (trim cdKey)) as [r|]; [|done].
  destruct (eresult r =? OK); [done|]. unfold failure.
  by destruct (purchase_result_details r =? 9),
    (purchase_result_details r =? 14), (purchase_result_details r =? 15).
Qed.

(** A call issues one redemption request, for the trimmed key, when the
    session is ready, whatever the platform answers or if it never
    answers, and none when the session is not ready. *)
Theorem activate_redeems OK activateKey st cdKey :
  redeems (activate OK activateKey st cdKey).1
  = if _ready st then [trim cdKey] else [].
Proof.
  unfold activate. destruct (_ready st); simpl; [|done].
  destruct (activateKey (trim cdKey)) as [r|]; [|done].
  destruct (eresult r =? OK); [done|].
  by destruct (failure (trim cdKey) r).
Qed.

(** How a call ends: it resolves, with the trimmed key, exactly when the
    session is ready and the platform answers OK; it stays pending exactly
    when the session is ready and the platform never answers; it rejects
    with [EC_NOT_INITED] exactly when the session is not ready, and every
    other rejection is one of the two activation codes. *)
Theorem activate_outcome OK activateKey st cdKey :
  (∀ key, (activate OK activateKey st cdKey).2 = Resolved key
          ↔ _ready st = true ∧ key = trim cdKey
            ∧ ∃ r, activateKey (trim cdKey) = Some r ∧ eresult r = OK)
  ∧ ((activate OK activateKey st cdKey).2 = Pending
     ↔ _ready st = true ∧ activateKey (trim cdKey) = None)
  ∧ ((activate OK activateKey st cdKey).2 = Rejected EC_NOT_INITED
     ↔ _ready st = false)
  ∧ (∀ e, (activate OK activateKey st cdKey).2 = Rejected e →
          e = EC_NOT_INITED ∨ e = EC_ACTIVATION_FAILED
          ∨ e = EC_ACTIVATION_FAILED_ALREADY_ACTIVATED).
Proof.
  unfold activate. destruct (_ready st) eqn:Hready; simpl.
  2:{ split; [|split; [|split]].
      - intros key. split; [done|]. by intros [? _].
      - split; [done|]. by intros [? _].
      - done.
      - intros e [= <-]. by left. }
  destruct (activateKey (trim cdKey)) as [r|] eqn:Hr; simpl.
  2:{ split; [|split; [|split]].
      - intros key. split; [done|]. by intros (_ & _ & r & ? & _).
      - done.
      - split; done.
      - done. }
  destruct (eresult r =? OK) eqn:Hok; simpl.
  - apply Z.eqb_eq in Hok. split; [|split; [|split]].
    + intros key. split; [intros [= <-]; eauto|]. by intros (_ & -> & _).
    + split; [done|]. by intros [_ ?].
    + split; done.
    + done.
  - apply Z.eqb_neq in Hok.
    destruct (failure (trim cdKey) r) as [errorCode line] eqn:Hf. simpl.
    assert (errorCode = EC_ACTIVATION_FAILED
            ∨ errorCode = EC_ACTIVATION_FAILED_ALREADY_ACTIVATED) as Hcodes.
    { unfold failure in Hf.
      destruct (purchase_result_details r =? 9),
        (purchase_result_details r =? 14),
        (purchase_result_details r =? 15); injection Hf as <- _; auto. }
    split; [|split; [|split]].
    + intros key. split; [done|]. by intros (_ & _ & r' & [= <-] & ?).
    + split; [done|]. by intros [_ ?].
    + split; [|done]. intros [= ->]. by destruct Hcodes.
    + intros e [= <-]. tauto.
Qed.
End ActivatorRequests.

(** ** More on the text handler *)

Section RegexpMatches.
Variable cls : N -> bool.

(** Every match of the engine is a run of at least [n] class characters
    that stands in the string. *)
Lemma matchAll_matches n s m :
  m ∈ matchAll cls n s →
  Forall (λ x, cls x = true) m ∧ (n ≤ length m)%nat
  ∧ ∃ a b, s = a ++ m ++ b.
Proof.
  remember (length s) as k eqn:Hk. revert s Hk m.
  induction k as [k IH] using lt_wf_ind.
  intros [|c s'] Hk m; simp matchAll; [by intros ?%elem_of_nil|].
  assert (m ∈ matchAll cls n s' →
          Forall (λ x, cls x = true) m ∧ (n ≤ length m)%nat
          ∧ ∃ a b, c :: s' = a ++ m ++ b) as Hskip.
  { intros Hin.
    destruct (IH (length s') ltac:(subst; simpl; lia) s' eq_refl m Hin)
      as (? & ? & a & b & ->).
    split; [done|]. split; [done|]. by exists (c :: a), b. }
  destruct (cls c) eqn:Hc; [|done].
  case_bool_decide as Hlen; [|done].
  intros [->|Hin]%elem_of_cons.
  - split; [constructor; [done|apply span_Forall]|]. split; [simpl; lia|].
    exists [], (span cls s').2. simpl. f_equal. apply span_app.
  - pose proof (span_length cls s') as Hshort.
    destruct (IH (length (span cls s').2) ltac:(subst; simpl; lia)
                (span cls s').2 eq_refl m Hin) as (? & ? & a & b & Hab).
    split; [done|]. split; [done|].
    exists (c :: (span cls s').1 ++ a), b.
    rewrite (span_app cls s') at 1. rewrite Hab. simpl.
    by rewrite <- !app_assoc.
Qed.
End RegexpMatches.

Section TextHandlerProperties.
Import G2Keys.

Lemma parseCdKey_cases chatMessage :
  (¬ Spec.hasRun keyChar 5 chatMessage
   ∧ (parseCdKey chatMessage).2 = Throw nullLength)
  ∨ (Spec.hasRun keyChar 5 chatMessage
     ∧ ∃ cdKey, (parseCdKey chatMessage).2 = Return (Some cdKey)).
Proof.
  pose proof (matchAll_nil_iff keyChar 5 chatMessage ltac:(lia)) as Hnil.
  pose proof (matchAll_matches keyChar 5 chatMessage) as Hin.
  unfold parseCdKey, String_match.
  destruct (matchAll keyChar 5 chatMessage) as [|first rest]; simpl.
  - left. split; [by apply Hnil|done].
  - right. split; [|eauto].
    destruct (Hin first) as (? & ? & a & b & ?); [left|].
    by exists a, first, b.
Qed.

(** [parseCdKey] never returns [undefined]: it throws exactly when the
    message has no run of five key characters, and returns a key whenever
    it has one. *)
Theorem parseCdKey_outcome chatMessage :
  ((parseCdKey chatMessage).2 = Throw nullLength
   ↔ ¬ Spec.hasRun keyChar 5 chatMessage)
  ∧ (Spec.hasRun keyChar 5 chatMessage
     ↔ ∃ cdKey, (parseCdKey chatMessage).2 = Return (Some cdKey))
  ∧ (parseCdKey chatMessage).2 ≠ Return None.
Proof.
  pose proof (matchAll_nil_iff keyChar 5 chatMessage ltac:(lia)) as Hnil.
  pose proof (matchAll_matches keyChar 5 chatMessage) as Hin.
  unfold parseCdKey, String_match.
  destruct (matchAll keyChar 5 chatMessage) as [|first rest]; simpl.
  - split; [by split; [intros _; apply Hnil|]|].
    split; [|done]. split; [by intros ?%Hnil|by intros [? ?]].
  - assert (Spec.hasRun keyChar 5 chatMessage) as Hrun.
    { destruct (Hin first) as (? & ? & a & b & ?); [left|].
      by exists a, first, b. }
    split; [split; [done|by intros ?%Hnil]|].
    split; [|done]. split; [eauto|done].
Qed.

(** The key [parseCdKey] returns stands in the message, is made of key
    characters only, and neither starts nor ends with a space. *)
Theorem parseCdKey_key chatMessage cdKey :
  (parseCdKey chatMessage).2 = Return (Some cdKey) →
  Forall (λ c, keyChar c = true) cdKey
  ∧ head cdKey ≠ Some SPACE ∧ last cdKey ≠ Some SPACE
  ∧ ∃ before behind, chatMessage = before ++ cdKey ++ behind.
Proof.
  unfold parseCdKey, String_match.
  destruct (matchAll keyChar 5 chatMessage) as [|first rest] eqn:Hm;
    simpl; [done|].
  intros [= <-].
  destruct (matchAll_matches keyChar 5 chatMessage first) as
    (Hcls & _ & a & b & Hab); [rewrite Hm; left|].
  destruct (trim_infix first) as (ws1 & ws2 & Hfirst & _ & _).
  split; [|split; [|split]].
  - rewrite Hfirst in Hcls.
    by apply Forall_app in Hcls as [_ [? _]%Forall_app].
  - intros H. by apply trim_head in H.
  - intros H. by apply trim_last in H.
  - exists (a ++ ws1), (ws2 ++ b). rewrite Hab, Hfirst at 1.
    by rewrite <- !app_assoc.
Qed.

Lemma parseCdKey_key_witness :
  (parseCdKey (lit "Get your key: AB12C-DE34F-GH56I now!")).2
  = Return (Some (lit "AB12C-DE34F-GH56I"))
  ∧ Forall (λ c, keyChar c = true) (lit "AB12C-DE34F-GH56I")
  ∧ head (lit "AB12C-DE34F-GH56I") ≠ Some SPACE.
Proof.
  split; [reflexivity|].
  destruct (parseCdKey_key (lit "Get your key: AB12C-DE34F-GH56I now!")
              (lit "AB12C-DE34F-GH56I") eq_refl) as (H1 & H2 & _).
  exact (conj H1 H2).
Defined.
End TextHandlerProperties.

Section TextFilterStream.
Import G2Keys.








End TextFilterStream.

Section TextListenerProperties.
Import G2Keys.

Lemma redeems_parseCdKey chatMessage : redeems (parseCdKey chatMessage).1 = [].
Proof.
  unfold parseCdKey. destruct (String_match keyChar 5 chatMessage) as [|[|? ?]];
    done.
Qed.

(** For one event the text listener issues at most one redemption request,
    however many messages the event carries. *)
Theorem text_listener_one_request OK activateKey ka st eventData :
  (length (redeems (onEvent OK activateKey ka st eventData).1.2) ≤ 1)%nat.
Proof.
  unfold onEvent. destruct (eventsFilter st eventData) as [st' [body|]];
    simpl; [|lia].
  pose proof (redeems_parseCdKey body) as Hparse.
  destruct (parseCdKey body) as [tr [[cdKey|]|e]]; simpl in *;
    try (rewrite Hparse; simpl; lia).
  unfold redeems in *. rewrite omap_app, Hparse. simpl.
  pose proof (redeems_activate OK activateKey ka cdKey) as Hact.
  unfold redeems in Hact. rewrite Hact. destruct (KeyActivator._ready ka);
    simpl; lia.
Qed.

(** The text listener throws exactly when its filter returns a body that
    has no run of five key characters; what it throws is the [TypeError]
    of reading [length] of [null]. *)
Theorem text_listener_throws_iff OK activateKey ka st eventData e :
  (onEvent OK activateKey ka st eventData).2 = Throw e
  ↔ e = nullLength
    ∧ ∃ body, (eventsFilter st eventData).2 = Some body
              ∧ ¬ Spec.hasRun keyChar 5 body.
Proof.
  unfold onEvent. destruct (eventsFilter st eventData) as [st' [body|]];
    simpl; [|by split; [|intros (_ & ? & ? & _)]].
  destruct (parseCdKey_cases body) as [[Hno Hthrow]|[Hrun [cdKey Hkey]]];
    destruct (parseCdKey body) as [tr c]; simpl in *; subst c.
  - split; [|by intros [-> _]].
    intros [= <-]. split; [done|]. by exists body.
  - split; [done|]. by intros (_ & b & [= <-] & Hno).
Qed.

Lemma text_listener_throws_iff_witness :
  let eventData := channelMessage chatId (lit "no key here") None in
  (onEvent 1 (λ _, None) KeyActivator.initial initial eventData).2
  = Throw nullLength
  ∧ ∃ body, (eventsFilter initial eventData).2 = Some body
            ∧ ¬ Spec.hasRun keyChar 5 body.
Proof.
  intros eventData. split; [reflexivity|].
  exact (proj2 (proj1 (text_listener_throws_iff 1 (λ _, None)
                         KeyActivator.initial initial eventData nullLength)
                  eq_refl)).
Defined.

(** End to end: for a new channel message on the handler's channel whose
    body differs from the retained one and has a leftmost run of key
    characters, the listener returns normally, retains the body and, when
    the session is ready, issues exactly one redemption request, for the
    trimmed run; when the session is not ready it issues none. *)
Theorem text_listener_submits_first_run
  OK activateKey ka st pre run post attachment :
  Spec.firstMaximalRun keyChar 5 pre run post →
  lastMsg st ≠ pre ++ run ++ post →
  let out := onEvent OK activateKey ka st
               (channelMessage chatId (pre ++ run ++ post) attachment) in
  out.2 = Return ()
  ∧ out.1.1 = {| lastMsg := pre ++ run ++ post |}
  ∧ redeems out.1.2
    = if KeyActivator._ready ka then [trim run] else [].
Proof.
  intros Hrun Hnew out. subst out. unfold onEvent.
  rewrite eventsFilter_channelMessage, bool_decide_false by done.
  unfold parseCdKey, String_match.
  rewrite (matchAll_first keyChar 5 pre run post ltac:(lia) Hrun).
  simpl. split; [done|]. split; [done|].
  pose proof (redeems_activate OK activateKey ka (trim run)) as Hact.
  rewrite trim_idempotent in Hact. exact Hact.
Qed.
End TextListenerProperties.

Lemma text_listener_submits_first_run_witness :
  let body := examplePre ++ exampleRun ++ examplePost in
  Spec.firstMaximalRun G2Keys.keyChar 5 examplePre exampleRun examplePost
  ∧ G2Keys.lastMsg G2Keys.initial ≠ body
  ∧ redeems (G2Keys.onEvent 1 (λ _, Some owned) readySession G2Keys.initial
               (channelMessage G2Keys.chatId body None)).1.2
    = [lit "AB12C-DE34F-GH56I"].
Proof.
  intros body.
  assert (G2Keys.lastMsg G2Keys.initial ≠ body) as Hnew by (by vm_compute).
  split; [apply example_firstMaximalRun|]. split; [exact Hnew|].
  exact (proj2 (proj2 (text_listener_submits_first_run 1 (λ _, Some owned)
                         readySession G2Keys.initial examplePre exampleRun
                         examplePost None example_firstMaximalRun Hnew))).
Defined.

(** ** More on the image handler *)

Section ImageHandlerProperties.
Import FreebieSteam.

Lemma settledChar_word c :
  settledChar c →
  (isWord c || (c =? DASH)%N = true) ∧ isWhiteSpace c = false ∧ c ≠ EM_DASH.
Proof.
  intros [Hkeep Hdash].
  assert (c ≠ EM_DASH) as Hem.
  { intros ->. by vm_compute in Hdash. }
  assert (isWord c || (c =? DASH)%N = true) as Hword.
  { apply negb_true_iff, negb_false_iff in Hkeep.
    apply orb_true_iff in Hkeep as [Hkeep|Hkeep];
      [|by rewrite Hkeep, orb_true_r].
    apply orb_true_iff in Hkeep as [Hkeep|Hkeep]; [by rewrite Hkeep|].
    by apply N.eqb_eq in Hkeep. }
  split; [done|]. split; [|done].
  revert Hword. unfold isWord, isUpper, isLower, isDigit, isWhiteSpace,
    in_range, DASH, UNDERSCORE.
  rewrite !orb_true_iff, !andb_true_iff, !N.eqb_eq, !N.leb_le.
  rewrite !orb_false_iff, !andb_false_iff, !N.eqb_neq, !N.leb_gt. lia.
Qed.

(** Whatever the scanned text, [normalize] leaves only word characters
    (letters, digits, the underscore) and the ordinary dash: no white
    space and no em-dash comes through. *)
Theorem normalize_charset text :
  Forall (λ c, isWord c || (c =? DASH)%N = true) (normalize text)
  ∧ Forall (λ c, isWhiteSpace c = false ∧ c ≠ EM_DASH) (normalize text).
Proof.
  pose proof (normalize_settled text) as Hs.
  split; (eapply Forall_impl; [exact Hs|]); intros c Hc;
    destruct (settledChar_word c Hc) as (? & ? & ?); done.
Qed.

(** [normalize] works character by character: the normal form of a
    concatenation is the concatenation of the normal forms, and nothing
    gets longer. *)
Theorem normalize_app text1 text2 :
  normalize (text1 ++ text2) = normalize text1 ++ normalize text2
  ∧ (length (normalize text1) ≤ length text1)%nat.
Proof.
  rewrite !normalize_filter_map. split.
  - by rewrite List.filter_app, fmap_app.
  - rewrite length_fmap. apply List.filter_length_le.
Qed.

(** A normalized text has no white space at its ends to trim. *)
Lemma trim_normalize text : trim (normalize text) = normalize text.
Proof.
  pose proof (normalize_settled text) as Hws.
  apply trim_fixed; intros c Hc.
  - destruct (normalize text) as [|x l]; [done|]. injection Hc as ->.
    apply Forall_cons in Hws as [Hx _]. by apply settledChar_word in Hx as (_ & ? & _).
  - apply last_Some in Hc as [l' Hl']. rewrite Hl' in Hws.
    apply Forall_app in Hws as [_ [Hx _]%Forall_cons].
    by apply settledChar_word in Hx as (_ & ? & _).
Qed.
End ImageHandlerProperties.

Section ImagePipelineProperties.
Import FreebieSteam.

Lemma redeems_app t1 t2 : redeems (t1 ++ t2) = redeems t1 ++ redeems t2.
Proof. apply omap_app. Qed.

Lemma redeems_log line t : redeems (Log line :: t) = redeems t.
Proof. done. Qed.

Lemma redeems_nil : redeems [] = [].
Proof. done. Qed.

(** The image chain asks the platform to redeem a key only when the image
    was loaded, saved and read by the OCR and the session is ready; the
    key is then the normalized OCR text, so it holds word characters and
    dashes only; and one chain never asks twice. *)
Theorem image_pipeline_redeems
  OK activateKey loadImage writeFileSync tesseract ka fi :
  let requests :=
    redeems (pipeline OK activateKey loadImage writeFileSync tesseract ka fi)
  in
  (∀ key,
     key ∈ requests
     ↔ KeyActivator._ready ka = true
       ∧ ∃ imageBuffer text,
           loadImage (fi_location fi) = Resolved imageBuffer
           ∧ writeFileSync (imagePathOf (fi_id fi)) imageBuffer = None
           ∧ tesseract (imagePathOf (fi_id fi)) = inr text
           ∧ key = normalize text)
  ∧ (length requests ≤ 1)%nat
  ∧ Forall (Forall (λ c, isWord c || (c =? DASH)%N = true)) requests.
Proof.
  intros requests. subst requests. unfold pipeline.
  rewrite redeems_app. simpl.
  destruct (loadImage (fi_location fi)) as [imageBuffer|ex|] eqn:Hload; simpl.
  2,3: split; [intros key; split; [by intros ?%elem_of_nil|
                                   by intros (_ & ? & ? & ? & _)]|];
       split; [simpl; lia|constructor].
  destruct (writeFileSync (imagePathOf (fi_id fi)) imageBuffer) as [ex|]
    eqn:Hwrite; simpl.
  { split; [intros key; split; [by intros ?%elem_of_nil|]|].
    - intros (_ & buf & ? & [= <-] & ? & _). congruence.
    - split; [simpl; lia|constructor]. }
  destruct (tesseract (imagePathOf (fi_id fi))) as [err|text] eqn:Hocr; simpl.
  { split; [intros key; split; [by intros ?%elem_of_nil|]|].
    - intros (_ & buf & ? & [= <-] & ? & ? & _). congruence.
    - split; [simpl; lia|constructor]. }
  pose proof (redeems_activate OK activateKey ka (normalize text)) as Hact.
  rewrite trim_normalize in Hact. unfold filterCdKeyText.
  destruct (KeyActivator.activate OK activateKey ka (normalize text))
    as [tr' r] eqn:Hactivate. simpl in Hact.
  assert (Forall (λ c, isWord c || (c =? DASH)%N = true) (normalize text))
    as Hchars.
  { eapply Forall_impl; [apply normalize_settled|].
    intros c Hc. by apply settledChar_word in Hc as (? & _). }
  assert (redeems (tr' ++ match r with
                          | Rejected e => onRejected (Number e)
                          | _ => []
                          end)
          = if KeyActivator._ready ka then [normalize text] else [])
    as Htail.
  { rewrite redeems_app, Hact. destruct r; unfold onRejected;
      rewrite ?redeems_log, redeems_nil; apply app_nil_r. }
  rewrite !redeems_log. rewrite Htail.
  destruct (KeyActivator._ready ka); simpl.
  - split; [intros key; split|].
    + intros ->%list_elem_of_singleton. split; [done|]. eauto 10.
    + intros (_ & buf & text' & [= <-] & _ & [= <-] & ->). left.
    + split; [lia|]. by repeat constructor.
  - split; [intros key; split; [by intros ?%elem_of_nil|by intros [? _]]|].
    split; [lia|constructor].
Qed.

Lemma image_pipeline_redeems_witness :
  let fi := {| fi_location := somewhere 3; fi_size := 200; fi_id := "5321" |} in
  let requests :=
    redeems (pipeline 1 (λ _, Some owned) (λ _, Resolved [])
               (λ _ _, None) (λ _, inr (lit "ab12c " ++ [EM_DASH] ++ lit " de34f"))
               readySession fi) in
  requests = [lit "ab12c-de34f"]
  ∧ (length requests ≤ 1)%nat.
Proof.
  intros fi requests. split; [reflexivity|].
  exact (proj1 (proj2 (image_pipeline_redeems 1 (λ _, Some owned)
                         (λ _, Resolved []) (λ _ _, None)
                         (λ _, inr (lit "ab12c " ++ [EM_DASH] ++ lit " de34f")) readySession fi))).
Defined.

(** How the image filter ends on an ['updates'] event: it returns nothing
    exactly when no update is a photo message for it, and it throws,
    reading [location] of [undefined], exactly when the first photo
    message for it has a photo without sizes. *)
Theorem image_filter_outcome updateArray :
  (eventsFilter (updates updateArray) = Return None
   ↔ Forall (λ u, photoMessage u = None) updateArray)
  ∧ (∀ e, eventsFilter (updates updateArray) = Throw e
          ↔ e = undefinedLocation
            ∧ ∃ pre u post photo,
                updateArray = pre ++ u :: post
                ∧ Forall (λ x, photoMessage x = None) pre
                ∧ photoMessage u = Some photo ∧ sizes photo = []).
Proof.
  simpl. induction updateArray as [|u rest [IHnone IHthrow]].
  { split; [by split; [constructor|]|]. intros e. split; [done|].
    by intros (_ & [|? ?] & ? & ? & ? & ? & _). }
  rewrite scan_cons. destruct (photoMessage u) as [photo|] eqn:Hu.
  - destruct (last (sizes photo)) as [l|] eqn:Hl.
    + split; [split; [done|by intros [? _]%Forall_cons; congruence]|].
      intros e. split; [done|].
      intros (_ & [|x pre] & u' & post & photo' & Heq & Hpre & Hu' & Hs);
        simpl in Heq; injection Heq as <- ?.
      * rewrite Hu in Hu'. injection Hu' as <-. by rewrite Hs in Hl.
      * apply Forall_cons in Hpre as [? _]. congruence.
    + split; [split; [done|by intros [? _]%Forall_cons; congruence]|].
      intros e. split.
      * intros [= <-]. split; [done|]. exists [], u, rest, photo.
        split; [done|]. split; [constructor|]. split; [done|].
        by destruct (sizes photo) as [|? ?] using rev_ind;
          [|rewrite last_snoc in Hl].
      * by intros [-> _].
  - split.
    + rewrite IHnone, Forall_cons. by split; [|intros [_ ?]].
    + intros e. rewrite IHthrow. split.
      * intros (-> & pre & u' & post & photo & -> & ? & ? & ?).
        split; [done|]. exists (u :: pre), u', post, photo.
        split; [done|]. split; [by constructor|done].
      * intros (-> & [|x pre] & u' & post & photo & Heq & Hpre & Hu' & Hs);
          simpl in Heq; injection Heq as <- ->; [congruence|].
        apply Forall_cons in Hpre as [_ Hpre]. split; [done|].
        by exists pre, u', post, photo.
Qed.
End ImagePipelineProperties.

(** ** More on the start-up chain *)

Section StartupChainProperties.
Import EventHandler Index.

Lemma loadHandlers_trace files e :
  e ∈ (loadHandlers files).1 →
  e = Log LogConnectingHandlers ∨ e = Log LogNoHandlers
  ∨ e = Log (LogFoundHandlers (length files) files)
  ∨ ∃ file, file ∈ files ∧ e = RequireModule ("../handler/" +:+ file).
Proof.
  unfold loadHandlers. case_bool_decide; simpl.
  - rewrite !elem_of_cons. intros [->|[->|[]%elem_of_nil]]; auto.
  - rewrite !elem_of_cons, list_elem_of_fmap.
    intros [->|[->|(file & -> & ?)]]; eauto 10.
Qed.

(** The start-up chain exits the process exactly when one of its stages
    rejects: the platform log-in, the messaging log-in after it, or the
    loading of the handlers with an empty folder after both. Its own
    promise never stays rejected. *)
Theorem main_exits_iff steam steamOutcome telegram telegramOutcome files :
  ProcessExit ∉ steam →
  ProcessExit ∉ telegram →
  (ProcessExit ∈ (main (steam, steamOutcome) (telegram, telegramOutcome)
                   files).1
   ↔ (∃ e, steamOutcome = Rejected e)
     ∨ steamOutcome = Resolved ()
       ∧ ((∃ e, telegramOutcome = Rejected e)
          ∨ telegramOutcome = Resolved () ∧ files = []))
  ∧ ∀ e, (main (steam, steamOutcome) (telegram, telegramOutcome) files).2
         ≠ Rejected e.
Proof.
  intros Hs Ht. unfold main, then_, catch_, log.
  destruct steamOutcome as [[]|e1|], telegramOutcome as [[]|e2|],
    files as [|file files]; simpl;
    (split; [|done]);
    rewrite ?elem_of_app, ?elem_of_cons, ?elem_of_nil, ?list_elem_of_fmap;
    (split; [intros H|intros H]).
  all: try (by intuition (try congruence; eauto)).
  all: try (by destruct H as [[? ?]|[? [[? ?]|[? ?]]]]).
  exfalso. unfold loadModule in H.
  repeat match type of H with _ ∨ _ => destruct H as [H|H] end;
    try done. by destruct H as (? & ? & _).
Qed.

Lemma main_exits_iff_witness :
  (ProcessExit ∉ [Log LogNotInitialised])
  ∧ ProcessExit
    ∈ (main ([], Rejected (Number KeyActivator.EC_AUTH_FAILED))
         ([Log LogNotInitialised], Pending) ["g2keys.js"]).1.
Proof.
  assert (ProcessExit ∉ [Log LogNotInitialised]) as Hno.
  { by intros [?|[]%elem_of_nil]%elem_of_cons. }
  split; [exact Hno|].
  apply (proj1 (main_exits_iff [] (Rejected (Number KeyActivator.EC_AUTH_FAILED))
                  [Log LogNotInitialised] Pending ["g2keys.js"]
                  (not_elem_of_nil _) Hno)).
  left. by eexists.
Defined.

(** The handlers are required only once both sessions are up: a module is
    required by the start-up chain exactly when both log-ins resolved and
    it is the module of an entry of the handlers folder. *)
Theorem handlers_required_after_sessions
  steam steamOutcome telegram telegramOutcome files path :
  (∀ p, RequireModule p ∉ steam) →
  (∀ p, RequireModule p ∉ telegram) →
  RequireModule path
  ∈ (main (steam, steamOutcome) (telegram, telegramOutcome) files).1
  ↔ steamOutcome = Resolved () ∧ telegramOutcome = Resolved ()
    ∧ ∃ file, file ∈ files ∧ path = ("../handler/" +:+ file)%string.
Proof.
  intros Hs Ht. specialize (Hs path). specialize (Ht path).
  unfold main, then_, catch_, log.
  destruct steamOutcome as [[]|e1|], telegramOutcome as [[]|e2|];
    try destruct (decide (files = [])) as [->|Hfiles]; simpl;
    rewrite ?elem_of_app, ?elem_of_cons, ?elem_of_nil;
    (split; [intros H|intros H]).
  all: try (by destruct H as (? & ? & _)).
  all: try (by intuition congruence).
  - by destruct H as (_ & _ & ? & ?%elem_of_nil & _).
  - unfold loadHandlers in *. rewrite bool_decide_false in *
      by (by destruct files). simpl in H.
    rewrite ?elem_of_app, ?elem_of_cons, ?elem_of_nil, ?list_elem_of_fmap in H.
    split; [done|]. split; [done|].
    repeat match type of H with _ ∨ _ => destruct H as [H|H] end;
      try done.
    destruct H as (file & [= ->] & ?). by exists file.
  - destruct H as (_ & _ & file & Hin & ->).
    unfold loadHandlers. rewrite bool_decide_false by (by destruct files).
    simpl. rewrite ?elem_of_app, ?elem_of_cons, ?list_elem_of_fmap.
    left. left. left. right. right. right. by exists file.
Qed.

Lemma handlers_required_after_sessions_witness :
  (∀ p, RequireModule p ∉ [Log LogNotInitialised])
  ∧ RequireModule "../handler/g2keys.js"
    ∈ (main ([], Resolved ()) ([Log LogNotInitialised], Resolved ())
         ["freebie.js"; "g2keys.js"]).1.
Proof.
  assert (∀ p, RequireModule p ∉ [Log LogNotInitialised]) as Hno.
  { by intros p [?|[]%elem_of_nil]%elem_of_cons. }
  split; [exact Hno|].
  apply (proj2 (handlers_required_after_sessions [] (Resolved ())
                  [Log LogNotInitialised] (Resolved ())
                  ["freebie.js"; "g2keys.js"] "../handler/g2keys.js"
                  (λ p, not_elem_of_nil _) Hno)).
  split; [done|]. split; [done|]. exists "g2keys.js".
  split; [by right; left|done].
Defined.
End StartupChainProperties.

(** ** The messaging session *)

Section TelegramClientProperties.
Import TelegramClient.

(** [errorType] returns the first of [message], [error_message] and
    [type] that is a non-empty string, in that order, and [undefined] only
    when none is: it never returns the empty string. *)
Theorem errorType_first_truthy error :
  match errorType error with
  | Some s =>
      s ≠ []
      ∧ (message error = Some s
         ∨ truthy (message error) = false
           ∧ (error_message error = Some s
              ∨ truthy (error_message error) = false
                ∧ type error = Some s))
  | None =>
      truthy (message error) = false
      ∧ truthy (error_message error) = false
      ∧ truthy (type error) = false
  end.
Proof.
  unfold errorType.
  destruct (message error) as [[|? ?]|] eqn:Hm; simpl; [|by split; [|left]|];
    (destruct (error_message error) as [[|? ?]|] eqn:He; simpl;
     [|by split; [|right; split; [|left]]|]);
    (destruct (type error) as [[|? ?]|] eqn:Ht; simpl;
     [done|by split; [|right; split; [|right]]|done]).
Qed.

Lemma isUserAuthorized_settles phone getFullUser :
  ((isUserAuthorized phone getFullUser).2 = Resolved true
   ↔ ∃ fullUser, getFullUser = Resolved fullUser)
  ∧ ((isUserAuthorized phone getFullUser).2 = Resolved false
     ↔ ∃ ex, getFullUser = Rejected ex ∧ unauthorized ex)
  ∧ (∀ ex, (isUserAuthorized phone getFullUser).2 = Rejected ex
           ↔ getFullUser = Rejected ex ∧ ¬ unauthorized ex).
Proof.
  unfold isUserAuthorized, unauthorized.
  destruct getFullUser as [fullUser|authCheckEx|]; simpl.
  - split; [split; [eauto|done]|].
    split; [split; [done|by intros (? & ? & _)]|].
    intros ex. split; [done|by intros [? _]].
  - destruct (bool_decide _ || bool_decide _) eqn:Hty; simpl.
    + apply orb_true_iff in Hty as
          [Hty%bool_decide_eq_true|Hty%bool_decide_eq_true];
        (split; [split; [done|by intros [? ?]]|];
         split; [split; [eauto|done]|];
         intros ex; split; [done|]; intros [[= <-] Hno]; tauto).
    + apply orb_false_iff in Hty as
          [Hty1%bool_decide_eq_false Hty2%bool_decide_eq_false].
      split; [split; [done|by intros [? ?]]|].
      split; [split; [done|intros (ex & [= <-] & ?); tauto]|].
      intros ex. split; [intros [= <-]; split; [done|tauto]|].
      by intros [[= <-] _].
  - split; [split; [done|by intros [? ?]]|].
    split; [split; [done|by intros (? & ? & _)]|].
    intros ex. split; [done|by intros [? _]].
Qed.

(** [isUserAuthorized] resolves with [true] exactly when the user request
    succeeds, with [false] exactly when it fails with an error of type
    AUTH_KEY_UNREGISTERED or SESSION_PASSWORD_NEEDED, and rejects, with the
    error of the request, exactly when it fails with any other error. *)
Theorem isUserAuthorized_outcome phone getFullUser :
  ((isUserAuthorized phone getFullUser).2 = Resolved true
   ↔ ∃ fullUser, getFullUser = Resolved fullUser)
  ∧ ((isUserAuthorized phone getFullUser).2 = Resolved false
     ↔ ∃ ex, getFullUser = Rejected ex ∧ unauthorized ex)
  ∧ (∀ ex, (isUserAuthorized phone getFullUser).2 = Rejected ex
           ↔ getFullUser = Rejected ex ∧ ¬ unauthorized ex).
Proof.
  destruct (isUserAuthorized_settles phone getFullUser)
    as (Htrue & Hfalse & Hrej).
  split; [exact Htrue|]. split; [exact Hfalse|exact Hrej].
Qed.

Lemma checkFailed_of_rejection phone check authCheckEx :
  (isUserAuthorized phone check).2 = Rejected authCheckEx →
  checkFailed authCheckEx = LogCheckError authCheckEx.
Proof.
  intros [_ Hno]%isUserAuthorized_settles. unfold checkFailed.
  rewrite bool_decide_false; [done|]. intros ?. apply Hno. by left.
Qed.

Lemma isUserAuthorized_trace phone check :
  TgLog LogCheckUnregistered ∉ (isUserAuthorized phone check).1.
Proof.
  unfold isUserAuthorized. destruct check as [?|ex|]; simpl;
    [|destruct (_ || _); simpl|];
    rewrite ?elem_of_cons, elem_of_nil; by intros [?|[?|?]] || intros [?|?].
Qed.

(** The branch of [connect] that tells the user to remove the storage file
    on AUTH_KEY_UNREGISTERED never runs: [isUserAuthorized] answers that
    error with [false] instead of rejecting, so the line is in no trace of
    [init]. *)
Theorem init_never_logs_unregistered tg_debug_server phone checks logins :
  TgLog LogCheckUnregistered
  ∉ (init tg_debug_server phone checks logins).1.
Proof.
  unfold init.
  assert (TgLog LogCheckUnregistered ∉ (connect phone checks logins).1)
    as Hconnect.
  { revert logins. induction checks as [|check checks IH]; intros logins;
      simpl.
    { by intros [?|[]%elem_of_nil]%elem_of_cons. }
    pose proof (isUserAuthorized_trace phone check) as Ht.
    pose proof (checkFailed_of_rejection phone check) as Hrej.
    destruct (isUserAuthorized phone check) as [t [[|]|ex|]]; simpl in *;
      [done| | |done].
    - destruct logins as [|[logResult|loginEx|] logins']; simpl.
      + rewrite elem_of_app, !elem_of_cons, elem_of_nil. by intros [?|[?|[?|?]]].
      + specialize (IH logins').
        destruct (connect phone checks logins') as [t' r]. simpl in *.
        rewrite !elem_of_app, !elem_of_cons, elem_of_nil.
        by intros [[?|[?|[?|?]]]|?].
      + rewrite !elem_of_app, !elem_of_cons, elem_of_nil.
        intros [[?|[?|[?|?]]]|[H|?]]; try done.
        unfold loginFailed in H. by case_bool_decide.
      + rewrite elem_of_app, !elem_of_cons, elem_of_nil. by intros [?|[?|[?|?]]].
    - rewrite elem_of_app, !elem_of_cons, elem_of_nil, (Hrej ex eq_refl).
      by intros [?|[?|?]]. }
  destruct (connect phone checks logins) as [t' r]. simpl in *.
  rewrite !elem_of_app, !elem_of_cons, elem_of_nil.
  intros [[H|[?|?]]|?]; try done. by destruct tg_debug_server;
    [apply elem_of_cons in H as [?|?%elem_of_nil]|apply elem_of_nil in H].
Qed.
(** [init] resolves exactly when some check of the session succeeds after
    a row of checks that each answered "not logged in" and were each
    followed by a log-in that succeeded. *)
Theorem init_resolves_iff tg_debug_server phone checks logins :
  (init tg_debug_server phone checks logins).2 = Resolved ()
  ↔ ∃ n fullUser,
      checks !! n = Some (Resolved fullUser)
      ∧ ∀ i, (i < n)%nat →
             (∃ ex, checks !! i = Some (Rejected ex) ∧ unauthorized ex)
             ∧ ∃ logResult, logins !! i = Some (Resolved logResult).
Proof.
  unfold init.
  assert ((connect phone checks logins).2 = Resolved ()
          ↔ ∃ n fullUser,
              checks !! n = Some (Resolved fullUser)
              ∧ ∀ i, (i < n)%nat →
                     (∃ ex, checks !! i = Some (Rejected ex) ∧ unauthorized ex)
                     ∧ ∃ logResult, logins !! i = Some (Resolved logResult))
    as Hconnect.
  { revert logins. induction checks as [|check checks IH]; intros logins.
    { simpl. split; [done|]. by intros (n & ? & ? & _). }
    simpl. destruct (isUserAuthorized_settles phone check)
      as (Htrue & Hfalse & Hrej).
    destruct (isUserAuthorized phone check) as [t [[|]|ex|]]; simpl in *.
    - destruct (proj1 Htrue eq_refl) as [fullUser ->].
      split; [|done]. intros _. exists 0%nat, fullUser. split; [done|lia].
    - destruct (proj1 Hfalse eq_refl) as (ex & -> & Hex).
      assert ((∃ n fullUser,
                     (Rejected ex :: checks) !! n = Some (Resolved fullUser)
                     ∧ ∀ i, (i < n)%nat →
                            (∃ ex', (Rejected ex :: checks) !! i
                                    = Some (Rejected ex') ∧ unauthorized ex')
                            ∧ ∃ logResult,
                                logins !! i = Some (Resolved logResult)) →
                 ∃ logResult logins', logins = Resolved logResult :: logins'
                   ∧ ∃ n fullUser,
                       checks !! n = Some (Resolved fullUser)
                       ∧ ∀ i, (i < n)%nat →
                              (∃ ex', checks !! i = Some (Rejected ex')
                                      ∧ unauthorized ex')
                              ∧ ∃ logResult',
                                  logins' !! i = Some (Resolved logResult'))
        as Hinv.
      { intros (n & fullUser & Hn & Hbefore). destruct n as [|n]; [done|].
        destruct (Hbefore 0%nat ltac:(lia)) as (_ & logResult & Hl).
        destruct logins as [|l logins']; [done|]. injection Hl as ->.
        exists logResult, logins'. split; [done|]. exists n, fullUser.
        split; [done|]. intros i Hi. apply (Hbefore (S i)). lia. }
      destruct logins as [|[logResult|loginEx|] logins']; simpl.
      + split; [done|]. by intros (? & ? & ? & _)%Hinv.
      + specialize (IH logins').
        destruct (connect phone checks logins') as [t' r]. simpl in *.
        rewrite IH. split.
        * intros (n & fullUser & Hn & Hbefore). exists (S n), fullUser.
          split; [done|]. intros [|i] Hi; simpl.
          -- split; [by exists ex|by exists logResult].
          -- apply Hbefore. lia.
        * intros (? & ? & [= <- <-] & H)%Hinv. exact H.
      + split; [done|]. by intros (? & ? & ? & _)%Hinv.
      + split; [done|]. by intros (? & ? & ? & _)%Hinv.
    - destruct (proj1 (Hrej ex) eq_refl) as [-> Hex].
      split; [done|]. intros ([|n] & fullUser & Hn & Hbefore); [done|].
      destruct (Hbefore 0%nat ltac:(lia)) as ((ex' & [= <-] & ?) & _). done.
    - split; [done|]. intros ([|n] & fullUser & Hn & Hbefore).
      + simpl in Hn. injection Hn as ->.
        by pose proof (proj2 Htrue ltac:(eauto)).
      + destruct (Hbefore 0%nat ltac:(lia)) as ((ex' & Hc & Hun) & _).
        simpl in Hc. injection Hc as ->.
        by pose proof (proj2 Hfalse ltac:(eauto)). }
  destruct (connect phone checks logins) as [t' r]. exact Hconnect.
Qed.

End TelegramClientProperties.

(** ** Logging in to the platform *)

Section KeyActivatorInitProperties.
Import KeyActivatorInit.
Variable OK : Z.
Variable sha1 : list N -> list N.
Variable typedUsername typedPassword : jsstring.
Variable typedAuthCode : nat -> jsstring.

#[local] Abbreviation init := (init sha1 typedUsername typedPassword).
#[local] Abbreviation handle := (handle OK sha1 typedAuthCode).
#[local] Abbreviation run := (run OK sha1 typedAuthCode).

(** [_readFileSentry] never returns the empty string, so the test
    [mSentry !== ""] of [init] never fails: [sha_sentryfile] is assigned in
    every run, with [undefined] when there is no sentry file or an empty
    one and with the digest of the file otherwise. *)
Theorem init_always_assigns_sentry username password file :
  notString (_readFileSentry sha1 file) [] = true
  ∧ sha_sentryfile (details (init username password file).2)
    = Some match file with
           | Some (b :: bytes) => JSbuffer (sha1 (b :: bytes))
           | _ => JSundefined
           end.
Proof.
  unfold KeyActivatorInit.init, _readFileSentry, _makeSHA.
  by destruct file as [[|b bytes]|].
Qed.

Lemma run_app st events1 events2 :
  (run st (events1 ++ events2)).2 = (run (run st events1).2 events2).2.
Proof.
  revert st. induction events1 as [|ev events1 IH]; intros st; simpl; [done|].
  destruct (handle st ev) as [t st'] eqn:Hh. specialize (IH st').
  destruct (run st' (events1 ++ events2)) as [t1 st1].
  destruct (run st' events1) as [t2 st2]. simpl in *.
  by destruct (run st2 events2).
Qed.

(** The session is ready after the events exactly when it was before or
    one of the log-on responses was OK. *)
Theorem run_ready_iff st events :
  KeyActivator._ready (ready (run st events).2) = true
  ↔ KeyActivator._ready (ready st) = true ∨ OK ∈ responses events.
Proof.
  revert st. induction events as [|ev events IH]; intros st; simpl.
  { split; [by left|]. by intros [?|?%elem_of_nil]. }
  destruct (handle st ev) as [t st'] eqn:Hh. specialize (IH st').
  destruct (run st' events) as [t' st'']. simpl in *. rewrite IH.
  unfold responses. unfold KeyActivatorInit.handle in Hh.
  destruct ev as [|code|bytes|bytes]; simpl.
  - by injection Hh as _ <-.
  - rewrite elem_of_cons. destruct (code =? OK) eqn:Hok.
    + apply Z.eqb_eq in Hok as ->. injection Hh as _ <-. simpl. tauto.
    + apply Z.eqb_neq in Hok.
      destruct (code =? _LOGIN_CODE_REQUIRED); injection Hh as _ <-; simpl;
        intuition congruence.
  - by injection Hh as _ <-.
  - by injection Hh as _ <-.
Qed.

(** The promise of [init] is settled by the first log-on response that is
    OK or is not the auth-code-required code: resolved when that response
    is OK, rejected with [EC_AUTH_FAILED] otherwise, and pending as long as
    there is none; later responses do not change it. *)
Theorem init_promise_first_decisive username password file events :
  promise (run (init username password file).2 events).2
  = match List.filter (λ code, (code =? OK) || negb (code =? 63))
            (responses events) with
    | [] => Pending
    | code :: _ =>
        if code =? OK then Resolved ()
        else Rejected KeyActivator.EC_AUTH_FAILED
    end.
Proof.
  assert (∀ st,
            promise (run st events).2
            = settle (promise st)
                match List.filter (λ code, (code =? OK) || negb (code =? 63))
                        (responses events) with
                | [] => Pending
                | code :: _ =>
                    if code =? OK then Resolved ()
                    else Rejected KeyActivator.EC_AUTH_FAILED
                end) as Hgen.
  { induction events as [|ev events IH]; intros st; simpl.
    { by destruct (promise st). }
    destruct (handle st ev) as [t st'] eqn:Hh. specialize (IH st').
    destruct (run st' events) as [t' st'']. simpl in *. rewrite IH.
    unfold responses. unfold KeyActivatorInit.handle in Hh.
    destruct ev as [|code|bytes|bytes]; simpl;
      try (by injection Hh as _ <-).
    change _LOGIN_CODE_REQUIRED with 63 in Hh.
    destruct (code =? OK) eqn:Hok; simpl.
    - injection Hh as _ <-. simpl. rewrite ?Hok. by destruct (promise st).
    - destruct (code =? 63) eqn:H63; injection Hh as _ <-; simpl;
        rewrite ?Hok, ?H63; simpl; rewrite ?Hok; [done|].
      by destruct (promise st). }
  by rewrite Hgen.
Qed.

Lemma run_resolved_ready st events :
  (promise st = Resolved () → KeyActivator._ready (ready st) = true) →
  promise (run st events).2 = Resolved () →
  KeyActivator._ready (ready (run st events).2) = true.
Proof.
  revert st. induction events as [|ev events IH]; intros st Hinv; simpl;
    [done|].
  destruct (handle st ev) as [t st'] eqn:Hh. specialize (IH st').
  destruct (run st' events) as [t' st'']. simpl in *. apply IH.
  unfold KeyActivatorInit.handle in Hh.
  destruct ev as [|code|bytes|bytes]; simpl;
    try (by injection Hh as _ <-).
  destruct (code =? OK); [by injection Hh as _ <-|].
  destruct (code =? _LOGIN_CODE_REQUIRED); injection Hh as _ <-; simpl;
    [done|].
  by destruct (promise st).
Qed.

(** Once [init] has resolved, [activate] finds the session ready: it
    issues the redemption request and does not reject with
    [EC_NOT_INITED]. *)
Theorem init_resolved_then_activate
  username password file events activateKey cdKey :
  let st := (run (init username password file).2 events).2 in
  promise st = Resolved () →
  redeems (KeyActivator.activate OK activateKey (ready st) cdKey).1
  = [trim cdKey]
  ∧ (KeyActivator.activate OK activateKey (ready st) cdKey).2
    ≠ Rejected KeyActivator.EC_NOT_INITED.
Proof.
  intros st Hres.
  assert (KeyActivator._ready (ready st) = true) as Hready.
  { by apply run_resolved_ready. }
  split; [by rewrite redeems_activate, Hready|].
  by apply activate_ready_not_inited.
Qed.
Lemma run_sentryFile st events :
  sentryFile (run st events).2
  = match lastSentry events with
    | Some bytes => Some bytes
    | None => sentryFile st
    end.
Proof.
  revert st. induction events as [|ev events IH]; intros st; simpl; [done|].
  destruct (handle st ev) as [t st'] eqn:Hh. specialize (IH st').
  destruct (run st' events) as [t' st'']. simpl in *. rewrite IH.
  unfold lastSentry. unfold KeyActivatorInit.handle in Hh.
  destruct ev as [|code|bytes|bytes]; simpl.
  - by injection Hh as _ <-.
  - destruct (code =? OK); [by injection Hh as _ <-|].
    by destruct (code =? _LOGIN_CODE_REQUIRED); injection Hh as _ <-.
  - injection Hh as _ <-. rewrite last_cons. simpl.
    by destruct (last _).
  - injection Hh as _ <-. rewrite last_cons. simpl.
    by destruct (last _).
Qed.

(** The sentry round trip: the bytes of the last sentry or machine-auth
    event of a run are what the sentry file holds afterwards, and when
    they are not empty the next [init] sends their digest as
    [sha_sentryfile], the digest the machine-auth callback reported. *)
Theorem sentry_round_trip st events bytes username password :
  lastSentry events = Some bytes →
  bytes ≠ [] →
  sentryFile (run st events).2 = Some bytes
  ∧ sha_sentryfile
      (details (init username password (sentryFile (run st events).2)).2)
    = Some (JSbuffer (sha1 bytes)).
Proof.
  intros Hlast Hne. rewrite run_sentryFile, Hlast. split; [done|].
  unfold KeyActivatorInit.init, _readFileSentry, _makeSHA. simpl.
  by destruct bytes.
Qed.

(** The auth code is asked once for every log-on response that carries
    the auth-code-required code (and is not OK), and the log-on details
    then hold the code typed at the last of these prompts. *)
Theorem run_auth_codes st events :
  let n := length (List.filter (λ code, negb (code =? OK) && (code =? 63))
                     (responses events)) in
  asked (run st events).2 = (asked st + n)%nat
  ∧ auth_code (details (run st events).2)
    = match n with
      | O => auth_code (details st)
      | S k => Some (typedAuthCode (asked st + k))
      end.
Proof.
  revert st. induction events as [|ev events IH]; intros st; simpl.
  { split; [lia|done]. }
  destruct (handle st ev) as [t st'] eqn:Hh. specialize (IH st').
  destruct (run st' events) as [t' st'']. simpl in *.
  destruct IH as [IHn IHc]. rewrite IHn, IHc. clear IHn IHc.
  unfold responses. unfold KeyActivatorInit.handle in Hh.
  change _LOGIN_CODE_REQUIRED with 63 in Hh.
  destruct ev as [|code|bytes|bytes]; simpl;
    try (injection Hh as _ <-; done).
  destruct (code =? OK) eqn:Hok; simpl.
  { by injection Hh as _ <-. }
  destruct (code =? 63) eqn:H63; injection Hh as _ <-; simpl; [|done].
  split; [lia|].
  destruct (length _) as [|k]; [by rewrite Nat.add_0_r|].
  f_equal. f_equal. lia.
Qed.
End KeyActivatorInitProperties.

Lemma init_resolved_then_activate_witness :
  let st := (KeyActivatorInit.run 1 (λ bytes, bytes) (λ _, lit "QK7XF")
               (KeyActivatorInit.init (λ bytes, bytes) (lit "user")
                  (lit "secret") None None None).2
               [KeyActivatorInit.onConnected;
                KeyActivatorInit.onLogOnResponse 63;
                KeyActivatorInit.onLogOnResponse 1]).2 in
  KeyActivatorInit.promise st = Resolved ()
  ∧ redeems (KeyActivator.activate 1 (λ _, None)
               (KeyActivatorInit.ready st) (lit " AB12C-DE34F ")).1
    = [lit "AB12C-DE34F"].
Proof.
  intros st. split; [reflexivity|].
  exact (proj1 (init_resolved_then_activate 1 (λ bytes, bytes) (lit "user")
                  (lit "secret") (λ _, lit "QK7XF") None None None
                  [KeyActivatorInit.onConnected;
                   KeyActivatorInit.onLogOnResponse 63;
                   KeyActivatorInit.onLogOnResponse 1]
                  (λ _, None) (lit " AB12C-DE34F ") eq_refl)).
Defined.

Lemma sentry_round_trip_witness :
  let events := [KeyActivatorInit.onSentry [1; 2; 3]%N;
                 KeyActivatorInit.onConnected;
                 KeyActivatorInit.onUpdateMachineAuth [7; 8]%N] in
  let st := (KeyActivatorInit.init (λ bytes, bytes) (lit "user")
               (lit "secret") None None None).2 in
  KeyActivatorInit.lastSentry events = Some [7; 8]%N
  ∧ KeyActivatorInit.sentryFile
      (KeyActivatorInit.run 1 (λ bytes, bytes) (λ _, []) st events).2
    = Some [7; 8]%N.
Proof.
  intros events st. split; [reflexivity|].
  exact (proj1 (sentry_round_trip 1 (λ bytes, bytes) (lit "user")
                  (lit "secret") (λ _, []) st events [7; 8]%N None None
                  eq_refl ltac:(done))).
Defined.

(** ** Logging in to the messaging service *)

Section Login2faProperties.
Import TelegramClient Login2fa.
Variable sha256 : jsstring -> list N.
Variable sendCode : settled jsstring TgError.
Variable signIn : settled User TgError.
Variable getPassword : settled jsstring TgError.
Variable checkPassword : list N -> settled User TgError.
Variable typedCode : Z.
Variable typedPassword : jsstring.

#[local] Abbreviation login :=
  (login sha256 sendCode signIn getPassword checkPassword typedCode
     typedPassword).

(** [login] resolves with a user exactly when the code was sent and either
    the sign-in succeeded with that user, or the sign-in failed with
    SESSION_PASSWORD_NEEDED, the salt was obtained and the check of the
    digest of salt, password, salt succeeded with that user. *)
Theorem login_resolves_iff phone password user :
  (login phone password).2 = Resolved user
  ↔ ∃ phone_code_hash,
      sendCode = Resolved phone_code_hash
      ∧ (signIn = Resolved user
         ∨ ∃ error current_salt,
             signIn = Rejected error
             ∧ errorType error = Some SESSION_PASSWORD_NEEDED
             ∧ getPassword = Resolved current_salt
             ∧ checkPassword
                 (sha256 (current_salt ++ passwordUsed typedPassword password
                            ++ current_salt))
               = Resolved user).
Proof.
  unfold Login2fa.login.
  destruct sendCode as [phone_code_hash|e|]; simpl;
    [|by split; [|intros (? & ? & _)]..].
  destruct signIn as [user'|error|]; simpl.
  - split.
    + intros [= ->]. exists phone_code_hash. split; [done|by left].
    + intros (? & _ & [[= ->]|(? & ? & ? & _)]); done.
  - case_bool_decide as Hty; simpl.
    + destruct getPassword as [current_salt|e|]; simpl.
      * destruct (checkPassword _) as [user'|e|] eqn:Hcheck; simpl.
        -- split.
           ++ intros [= ->]. exists phone_code_hash. split; [done|].
              right. by exists error, current_salt.
           ++ intros (? & _ & [?|(? & ? & [= <-] & _ & [= <-] & Hc)]);
                [done|]. rewrite Hcheck in Hc. by injection Hc as ->.
        -- split; [done|].
           intros (? & _ & [?|(? & ? & [= <-] & _ & [= <-] & Hc)]);
             [done|]. by rewrite Hcheck in Hc.
        -- split; [done|].
           intros (? & _ & [?|(? & ? & [= <-] & _ & [= <-] & Hc)]);
             [done|]. by rewrite Hcheck in Hc.
      * split; [done|]. by intros (? & _ & [?|(? & ? & _ & _ & ? & _)]).
      * split; [done|]. by intros (? & _ & [?|(? & ? & _ & _ & ? & _)]).
    + split; [done|].
      intros (? & _ & [?|(? & ? & [= <-] & ? & _)]); done.
  - split; [done|]. by intros (? & _ & [?|(? & ? & ? & _)]).
Qed.

(** The password is asked for exactly when no password was passed, the
    code was sent and the sign-in failed with SESSION_PASSWORD_NEEDED; any
    other error of the sign-in is the rejection of [login], unchanged. *)
Theorem login_asks_password_iff phone password :
  (AskPassword ∈ (login phone password).1
   ↔ truthy password = false
     ∧ ∃ phone_code_hash error,
         sendCode = Resolved phone_code_hash ∧ signIn = Rejected error
         ∧ errorType error = Some SESSION_PASSWORD_NEEDED)
  ∧ ∀ phone_code_hash error,
      sendCode = Resolved phone_code_hash → signIn = Rejected error →
      errorType error ≠ Some SESSION_PASSWORD_NEEDED →
      (login phone password).2 = Rejected error.
Proof.
  unfold Login2fa.login. split.
  - destruct sendCode as [phone_code_hash|e|]; simpl;
      [destruct signIn as [user'|error|]; simpl;
       [|case_bool_decide as Hty; simpl;
         [destruct getPassword as [current_salt|e|]; simpl;
          [destruct (checkPassword _) as [?|?|]; simpl|..]|]|]|..];
      destruct (truthy password) eqn:Hpw; simpl;
      rewrite ?elem_of_app, ?elem_of_cons, ?elem_of_nil;
      (split; [intros H|intros (Ht & h & e' & Hs & Hr & He)]);
      try discriminate; try (injection Hr as <-); try congruence;
      try (by intuition congruence);
      try (split; [done|]; by exists phone_code_hash, error).
  - intros phone_code_hash error -> -> Hty. simpl.
    by rewrite bool_decide_false.
Qed.
End Login2faProperties.

(** ** The older activator *)

Lemma legacy_activate_rejects_by_detail_witness :
  KeyActivator.eresult throttled ≠ 1
  ∧ (SteamLegacy.activate 1 (λ _, Some throttled) true
       (lit " AB12C-DE34F ")).2
    = Rejected KeyActivator.EC_ACTIVATION_FAILED_ALREADY_ACTIVATED.
Proof.
  assert (KeyActivator.eresult throttled ≠ 1) as Hcode by (by vm_compute).
  split; [exact Hcode|].
  exact (legacy_activate_rejects_by_detail 1 (λ _, Some throttled)
           (lit " AB12C-DE34F ") throttled eq_refl Hcode).
Defined.
